(** * agents_audit: the delayed LLM wrapper and its configuration

    A shallow embedding of [backend/src/agent/configuration.py]:
    - [Configuration.from_runnable_config], the settings resolver;
    - [DelayedLLM.__init__], which filters the keyword arguments, picks one
      of the two chat clients and injects the connection parameters;
    - [DelayedLLM.invoke] and [DelayedLLM.ainvoke], which wait until
      [_delay_seconds] have passed since the stored time stamp, store a new
      stamp and call the client.

    Python dictionaries with string keys are [gmap string _]; seconds are
    exact rationals ([Q]) standing for Python's floats, so rounding is left
    out.  The definitions come first, the properties after them. *)

From Stdlib Require Import QArith Lqa List Ascii String.
From stdpp Require Import gmap strings list fin_maps.

Open Scope string_scope.
Open Scope list_scope.

(** ** Python values that appear in the keyword arguments *)

Inductive PyVal : Type :=
| VNone
| VBool (b : bool)
| VInt (z : Z)
| VFloat (q : Q)
| VStr (s : string).

(** [os.environ]: a mapping from names to strings. *)
Abbreviation Environ := (gmap string string).

(** [os.getenv(name)]: the string, or [None] when the variable is unset. *)
Definition getenv (environ : Environ) (name : string) : PyVal :=
  match environ !! name with
  | Some s => VStr s
  | None => VNone
  end.

(** ** The two chat clients

    [ChatLiteLLM] and [ChatGoogleGenerativeAI] are library classes.  A client
    is represented by the class that was instantiated and the keyword
    arguments its constructor received. *)

Inductive LLMClass : Type := ChatLiteLLM | ChatGoogleGenerativeAI.

Record Client : Type := mkClient {
  client_class : LLMClass;
  init_kwargs : gmap string PyVal
}.

(** Python exceptions, by class. *)
Inductive Exn : Type :=
| CancelledError
| Raised (cls : string).

(** The constructor of a chat client: it returns a client or raises.  What a
    library constructor does with its arguments is not the wrapper's, so the
    wrapper is modelled over any such function. *)
Abbreviation Constructor := (LLMClass -> gmap string PyVal -> Exn + Client).

(** The constructor that accepts whatever it is given and keeps it. *)
Definition instantiate : Constructor := fun cls kw => inr (mkClient cls kw).

(** ** [class DelayedLLM] *)

Record DelayedLLM : Type := mkDelayedLLM {
  _delay_seconds : Q;
  _last_call_time : Q;
  _use_openrouter : bool;
  llm : Client
}.

(** The comprehension
    [{k: v for k, v in kwargs.items() if k not in ['delay_seconds', 'use_openrouter']}]. *)
Definition custom_parameters : list string := ["delay_seconds"; "use_openrouter"].

Definition filtered_kwargs (kwargs : gmap string PyVal) : gmap string PyVal :=
  filter (fun kv => kv.1 ∉ custom_parameters) kwargs.

(** [{**filtered_kwargs, "base_url": ..., "custom_llm_provider": ..., "api_key": ...}]:
    the literal entries come after the unpacked dictionary, so they replace
    an entry of the same key. *)
Definition openrouter_kwargs (environ : Environ) (kwargs : gmap string PyVal)
  : gmap string PyVal :=
  <["api_key" := getenv environ "OPEN_ROUTER_API_KEY"]>
    (<["custom_llm_provider" := VStr "openrouter"]>
       (<["base_url" := VStr "https://openrouter.ai/api/v1"]>
          (filtered_kwargs kwargs))).

(** [{**filtered_kwargs, "api_key": os.getenv("GEMINI_API_KEY")}]. *)
Definition gemini_kwargs (environ : Environ) (kwargs : gmap string PyVal)
  : gmap string PyVal :=
  <["api_key" := getenv environ "GEMINI_API_KEY"]> (filtered_kwargs kwargs).

(** [DelayedLLM.__init__(self, delay_seconds=60, use_openrouter=True, **kwargs)]:
    the fields are set, the keyword arguments are filtered, and the client of
    the selected provider is constructed; an exception of the client's
    constructor leaves [__init__]. *)
Definition DelayedLLM_init (build : Constructor) (environ : Environ)
    (delay_seconds : Q) (use_openrouter : bool) (kwargs : gmap string PyVal)
  : Exn + DelayedLLM :=
  let self := mkDelayedLLM delay_seconds 0 use_openrouter in
  if use_openrouter then
    match build ChatLiteLLM (openrouter_kwargs environ kwargs) with
    | inr client => inr (self client)
    | inl e => inl e
    end
  else
    match build ChatGoogleGenerativeAI (gemini_kwargs environ kwargs) with
    | inr client => inr (self client)
    | inl e => inl e
    end.

(** The keys [__init__] adds for the selected provider. *)
Definition injected_keys (use_openrouter : bool) : list string :=
  if use_openrouter then ["base_url"; "custom_llm_provider"; "api_key"]
  else ["api_key"].

(** The keyword arguments a constructed wrapper's client received. *)
Definition forwarded (r : Exn + DelayedLLM) : option (gmap string PyVal) :=
  match r with
  | inr self => Some (init_kwargs (llm self))
  | inl _ => None
  end.

(** ** [class Configuration] *)

(** [cls.model_fields]: the declared fields, in order, with their defaults. *)
Definition model_fields : list (string * PyVal) :=
  [ ("coordinator_model", VStr "google/gemini-2.5-flash-lite");
    ("specialist_model", VStr "google/gemini-2.5-flash-lite");
    ("document_model", VStr "google/gemini-2.5-flash");
    ("analysis_model", VStr "google/gemini-2.5-flash-lite");
    ("use_openrouter", VBool true);
    ("openrouter_base_url", VStr "https://openrouter.ai/api/v1");
    ("max_conversation_length", VInt 50);
    ("max_concurrent_agents", VInt 15);
    ("project_creation_timeout_minutes", VInt 10);
    ("thursday_reminder_hour", VInt 14);
    ("max_document_length", VInt 10000);
    ("json_data_directory", VStr "./json_data");
    ("coordinator_temperature", VFloat (1 # 10));
    ("document_temperature", VFloat (3 # 10));
    ("analysis_temperature", VFloat (2 # 10));
    ("api_call_delay_seconds", VInt 120) ].

(** [str.upper] on the ASCII letters (the field names are ASCII). *)
Definition upper_ascii (c : ascii) : ascii :=
  let n := nat_of_ascii c in
  if (97 <=? n)%nat && (n <=? 122)%nat then ascii_of_nat (n - 32) else c.

Fixpoint upper (s : string) : string :=
  match s with
  | EmptyString => EmptyString
  | String c r => String (upper_ascii c) (upper r)
  end.

(** A [RunnableConfig]: a dictionary whose entries are themselves mappings;
    only the entry ["configurable"] is read. *)
Abbreviation RunnableConfig := (gmap string (gmap string PyVal)).

(** [config["configurable"] if config and "configurable" in config else {}];
    an empty dictionary is falsy. *)
Definition configurable_of (config : option RunnableConfig) : gmap string PyVal :=
  match config with
  | None => ∅
  | Some c =>
      if bool_decide (c = ∅) then ∅
      else match c !! "configurable" with
           | Some m => m
           | None => ∅
           end
  end.

(** [os.environ.get(name.upper(), configurable.get(name))]. *)
Definition raw_value (environ : Environ) (configurable : gmap string PyVal)
    (name : string) : PyVal :=
  match environ !! upper name with
  | Some s => VStr s
  | None => match configurable !! name with
            | Some v => v
            | None => VNone
            end
  end.

Definition raw_values (environ : Environ) (configurable : gmap string PyVal)
  : gmap string PyVal :=
  list_to_map (map (fun name => (name, raw_value environ configurable name))
                   (map fst model_fields)).

Definition is_None (v : PyVal) : bool :=
  match v with VNone => true | _ => false end.

(** [{k: v for k, v in raw_values.items() if v is not None}]. *)
Definition values (environ : Environ) (configurable : gmap string PyVal)
  : gmap string PyVal :=
  filter (fun kv => is_None kv.2 = false) (raw_values environ configurable).

(** The annotations of the fields: [str], [bool], [int] and [float]. *)
Inductive FieldType : Type := TStr | TBool | TInt | TFloat.

Definition annotations : gmap string FieldType :=
  list_to_map
    [ ("coordinator_model", TStr);
      ("specialist_model", TStr);
      ("document_model", TStr);
      ("analysis_model", TStr);
      ("use_openrouter", TBool);
      ("openrouter_base_url", TStr);
      ("max_conversation_length", TInt);
      ("max_concurrent_agents", TInt);
      ("project_creation_timeout_minutes", TInt);
      ("thursday_reminder_hour", TInt);
      ("max_document_length", TInt);
      ("json_data_directory", TStr);
      ("coordinator_temperature", TFloat);
      ("document_temperature", TFloat);
      ("analysis_temperature", TFloat);
      ("api_call_delay_seconds", TInt) ].

(** What pydantic does with a value supplied for a field of a given
    annotation: it converts the value (the text of an environment variable
    becomes a number in an [int] field) or refuses it.  This is the
    library's, so the resolver is modelled over any such function. *)
Abbreviation Validator := (FieldType -> PyVal -> option PyVal).

(** One field of the new instance: a supplied value goes through the
    validation of the field's annotation; a field that is not supplied
    takes its declared default, which is not validated. *)
Definition construct_field (validate : Validator) (vals : gmap string PyVal)
    (field : string * PyVal) : option (string * PyVal) :=
  match vals !! field.1 with
  | Some v =>
      ty ← annotations !! field.1;
      v' ← validate ty v;
      Some (field.1, v')
  | None => Some field
  end.

(** The call of [cls] on the unpacked [values]: the instance, or
    [ValidationError] when a supplied value is refused. *)
Definition Configuration_new (validate : Validator) (vals : gmap string PyVal)
  : Exn + gmap string PyVal :=
  match mapM (construct_field validate vals) model_fields with
  | Some fields => inr (list_to_map fields)
  | None => inl (Raised "ValidationError")
  end.

Definition from_runnable_config (validate : Validator) (environ : Environ)
    (config : option RunnableConfig) : Exn + gmap string PyVal :=
  Configuration_new validate (values environ (configurable_of config)).

(** ** The resolution in words

    The two definitions below are not the code's: they write out what the
    resolver is said to do, to be compared with it.  [environment_variables]
    gives for every field the variable that is read for it, the name of the
    field in upper case.  [supplied_value] is the value supplied for a
    field: the text of its variable when the variable is set, otherwise the
    entry of the field in the mapping under ["configurable"] when the
    configuration has one and the entry is not [None], otherwise nothing. *)
Definition environment_variables : list (string * string) :=
  [ ("coordinator_model", "COORDINATOR_MODEL");
    ("specialist_model", "SPECIALIST_MODEL");
    ("document_model", "DOCUMENT_MODEL");
    ("analysis_model", "ANALYSIS_MODEL");
    ("use_openrouter", "USE_OPENROUTER");
    ("openrouter_base_url", "OPENROUTER_BASE_URL");
    ("max_conversation_length", "MAX_CONVERSATION_LENGTH");
    ("max_concurrent_agents", "MAX_CONCURRENT_AGENTS");
    ("project_creation_timeout_minutes", "PROJECT_CREATION_TIMEOUT_MINUTES");
    ("thursday_reminder_hour", "THURSDAY_REMINDER_HOUR");
    ("max_document_length", "MAX_DOCUMENT_LENGTH");
    ("json_data_directory", "JSON_DATA_DIRECTORY");
    ("coordinator_temperature", "COORDINATOR_TEMPERATURE");
    ("document_temperature", "DOCUMENT_TEMPERATURE");
    ("analysis_temperature", "ANALYSIS_TEMPERATURE");
    ("api_call_delay_seconds", "API_CALL_DELAY_SECONDS") ].

Definition supplied_value (environ : Environ) (config : option RunnableConfig)
    (name variable : string) : option PyVal :=
  match environ !! variable with
  | Some text => Some (VStr text)
  | None =>
      match config with
      | Some c =>
          match c !! "configurable" with
          | Some entries =>
              match entries !! name with
              | Some VNone | None => None
              | Some v => Some v
              end
          | None => None
          end
      | None => None
      end
  end.

(** Names used to state what [__init__] does for either provider. *)
Definition provider_class (use_openrouter : bool) : LLMClass :=
  if use_openrouter then ChatLiteLLM else ChatGoogleGenerativeAI.

Definition credential_variable (use_openrouter : bool) : string :=
  if use_openrouter then "OPEN_ROUTER_API_KEY" else "GEMINI_API_KEY".

Definition constructor_kwargs (environ : Environ) (use_openrouter : bool)
    (kwargs : gmap string PyVal) : gmap string PyVal :=
  if use_openrouter then openrouter_kwargs environ kwargs
  else gemini_kwargs environ kwargs.

(** ** The two call paths as programs over their effects

    [invoke] and [ainvoke] read the clock, read and write the field
    [_last_call_time], print, wait and call the client.  They are written
    here as trees of these operations, statement by statement; what an
    operation does to the world is given afterwards, once for a caller that
    runs alone and once for coroutines that share an event loop. *)

Definition Input := string.
Definition Config := option string.
Definition Response := string.

(** The line printed before a wait: the delay shown, the provider named, and
    whether it is the line of the suspending path. *)
Record Diagnostic : Type := mkDiagnostic {
  shown_delay : Q;
  shown_provider : string;
  shown_async : bool
}.

Inductive Eff : Type -> Type :=
| time_time : Eff Q
| get_self : Eff DelayedLLM
| set_last_call_time (t : Q) : Eff unit
| print (line : Diagnostic) : Eff unit
| time_sleep (secs : Q) : Eff unit
| asyncio_sleep (secs : Q) : Eff unit
| llm_invoke (input : Input) (config : Config) : Eff Response
| llm_ainvoke (input : Input) (config : Config) : Eff Response.

Inductive Prog (R : Type) : Type :=
| Ret (r : R)
| Vis {X : Type} (e : Eff X) (k : X -> Prog R).

Arguments Ret {R} r.
Arguments Vis {R X} e k.

Fixpoint bind {A B : Type} (p : Prog A) (f : A -> Prog B) : Prog B :=
  match p with
  | Ret a => f a
  | Vis e k => Vis e (fun x => bind (k x) f)
  end.

#[global] Instance Prog_ret : MRet Prog := @Ret.
#[global] Instance Prog_bind : MBind Prog := fun A B f p => bind p f.

Definition call {X : Type} (e : Eff X) : Prog X := Vis e Ret.

Definition provider_name (self : DelayedLLM) : string :=
  if _use_openrouter self then "OpenRouter" else "Gemini API".

(** [DelayedLLM.invoke(self, input, config=None)]. *)
Definition invoke (input : Input) (config : Config) : Prog Response :=
  current_time ← call time_time;
  self ← call get_self;
  let time_since_last_call := (current_time - _last_call_time self)%Q in
  (if Qlt_le_dec time_since_last_call (_delay_seconds self) then
     let sleep_time := (_delay_seconds self - time_since_last_call)%Q in
     let provider := provider_name self in
     call (print (mkDiagnostic sleep_time provider false));;
     call (time_sleep sleep_time)
   else mret tt);;
  now ← call time_time;
  call (set_last_call_time now);;
  call (llm_invoke input config).

(** [DelayedLLM.ainvoke(self, input, config=None)]. *)
Definition ainvoke (input : Input) (config : Config) : Prog Response :=
  current_time ← call time_time;
  self ← call get_self;
  let time_since_last_call := (current_time - _last_call_time self)%Q in
  (if Qlt_le_dec time_since_last_call (_delay_seconds self) then
     let sleep_time := (_delay_seconds self - time_since_last_call)%Q in
     let provider := provider_name self in
     call (print (mkDiagnostic sleep_time provider true));;
     call (asyncio_sleep sleep_time)
   else mret tt);;
  now ← call time_time;
  call (set_last_call_time now);;
  call (llm_ainvoke input config).

(** ** The world of one wrapper *)

Inductive Action : Type :=
| ReadStamp (last : Q)
| Print (line : Diagnostic)
| Wait (suspending : bool) (requested : Q)
| Stamp (t : Q)
| Dispatch (suspending : bool) (input : Input) (config : Config)
| Complete (outcome : Exn + Response)
| Cancel.

(** What happened, to which caller, and the clock at that moment. *)
Record Event : Type := mkEvent {
  caller : nat;
  at_ : Q;
  what : Action
}.

(** The clock, the wrapper object and the events so far, newest first. *)
Record World : Type := mkWorld {
  clock : Q;
  gate : DelayedLLM;
  log : list Event
}.

Definition record (who : nat) (a : Action) (w : World) : World :=
  mkWorld (clock w) (gate w) (mkEvent who (clock w) a :: log w).

Definition advance (dt : Q) (w : World) : World :=
  mkWorld (clock w + dt)%Q (gate w) (log w).

Definition store_last_call_time (t : Q) (w : World) : World :=
  mkWorld (clock w)
          (mkDelayedLLM (_delay_seconds (gate w)) t (_use_openrouter (gate w)) (llm (gate w)))
          (log w).

(** What one call meets: how much longer than asked its wait lasts, whether
    and when the caller cancels the task during a suspending wait, how long
    the client takes, and what the client returns or raises. *)
Record CallEnv : Type := mkCallEnv {
  overshoot : Q;
  cancel_after : option Q;
  duration : Q;
  outcome : Exn + Response
}.

Definition cancelled_within (env : CallEnv) (span : Q) : option Q :=
  match cancel_after env with
  | Some c => if Qlt_le_dec c span then Some c else None
  | None => None
  end.

(** The operations for a caller that runs alone.  Statements take no time;
    time passes in the waits and in the client.  [time.sleep] raises
    [ValueError] on a negative argument and otherwise lasts at least as long
    as asked; [asyncio.sleep] returns at once for a non-positive argument and
    raises [CancelledError] when the task is cancelled before it is over. *)
Definition handle (who : nat) (env : CallEnv) {X : Type} (e : Eff X) (w : World)
  : World * (Exn + X) :=
  match e in Eff X return World * (Exn + X) with
  | time_time => (w, inr (clock w))
  | get_self => (record who (ReadStamp (_last_call_time (gate w))) w, inr (gate w))
  | set_last_call_time t => (store_last_call_time t (record who (Stamp t) w), inr tt)
  | print line => (record who (Print line) w, inr tt)
  | time_sleep secs =>
      if Qlt_le_dec secs 0 then (w, inl (Raised "ValueError"))
      else (advance (secs + overshoot env) (record who (Wait false secs) w), inr tt)
  | asyncio_sleep secs =>
      let span := ((if Qlt_le_dec 0 secs then secs else 0) + overshoot env)%Q in
      match cancelled_within env span with
      | Some c => (record who Cancel (advance c (record who (Wait true secs) w)),
                   inl CancelledError)
      | None => (advance span (record who (Wait true secs) w), inr tt)
      end
  | llm_invoke input config =>
      (record who (Complete (outcome env))
         (advance (duration env) (record who (Dispatch false input config) w)),
       outcome env)
  | llm_ainvoke input config =>
      (record who (Complete (outcome env))
         (advance (duration env) (record who (Dispatch true input config) w)),
       outcome env)
  end.

(** Running a program: an exception ends it. *)
Fixpoint run {R : Type} (who : nat) (env : CallEnv) (p : Prog R) (w : World)
  : World * (Exn + R) :=
  match p with
  | Ret r => (w, inr r)
  | Vis e k =>
      match handle who env e w with
      | (w', inr x) => run who env (k x) w'
      | (w', inl exn) => (w', inl exn)
      end
  end.

(** ** Calls issued one after the other *)

Inductive Path : Type := Blocking | Suspending.

Record Call : Type := mkCall {
  issued_at : Q;
  path : Path;
  call_input : Input;
  call_config : Config;
  call_env : CallEnv
}.

Definition entry (p : Path) (input : Input) (config : Config) : Prog Response :=
  match p with
  | Blocking => invoke input config
  | Suspending => ainvoke input config
  end.

(** The caller issues the call at [issued_at], or as soon as the previous
    call has left the wrapper when that is later. *)
Definition arrive (t : Q) (w : World) : World :=
  mkWorld (if Qlt_le_dec (clock w) t then t else clock w) (gate w) (log w).

Definition issue (who : nat) (c : Call) (w : World) : World * (Exn + Response) :=
  run who (call_env c) (entry (path c) (call_input c) (call_config c))
      (arrive (issued_at c) w).

Fixpoint run_calls (who : nat) (cs : list Call) (w : World) : World :=
  match cs with
  | [] => w
  | c :: rest => run_calls (S who) rest (issue who c w).1
  end.

(** The events in the order they happened. *)
Definition history (w : World) : list Event := rev (log w).

Definition is_dispatch (ev : Event) : bool :=
  match what ev with Dispatch _ _ _ => true | _ => false end.

Definition is_complete (ev : Event) : bool :=
  match what ev with Complete _ => true | _ => false end.

Definition is_wait (ev : Event) : bool :=
  match what ev with Wait _ _ => true | _ => false end.

Definition is_stamp (ev : Event) : bool :=
  match what ev with Stamp _ => true | _ => false end.

(** The instants at which the client's call began, and at which it ended,
    in the order they happened. *)
Definition dispatch_times (evs : list Event) : list Q :=
  map at_ (List.filter is_dispatch evs).

Definition completion_times (evs : list Event) : list Q :=
  map at_ (List.filter is_complete evs).

(** Every instant of [ts] is at least [d] after the one before it. *)
Fixpoint spaced (d : Q) (ts : list Q) : Prop :=
  match ts with
  | t1 :: (t2 :: _) as rest => (t1 + d <= t2)%Q /\ spaced d rest
  | _ => True
  end.

(** Every dispatch but the first is at least [d] after the end of the
    client's call before it: [starts] without its head against [ends]. *)
Fixpoint spaced_from_ends (d : Q) (ends starts : list Q) : Prop :=
  match ends, starts with
  | e :: ends', s :: starts' => (e + d <= s)%Q /\ spaced_from_ends d ends' starts'
  | _, _ => True
  end.

Definition fresh_world (t : Q) (self : DelayedLLM) : World := mkWorld t self [].

(** ** What a call does, in closed form *)

(** Seconds since the stored stamp, as the call computes them on entry. *)
Definition time_since_last_call (w : World) : Q :=
  (clock w - _last_call_time (gate w))%Q.

Definition sleep_time (w : World) : Q :=
  (_delay_seconds (gate w) - time_since_last_call w)%Q.

(** The world once the stamp has been read and, for a call that has to
    wait, the line printed and the wait begun. *)
Definition entered (who : nat) (w : World) : World :=
  record who (ReadStamp (_last_call_time (gate w))) w.

Definition waiting (who : nat) (suspending : bool) (w : World) : World :=
  record who (Wait suspending (sleep_time w))
    (record who (Print (mkDiagnostic (sleep_time w) (provider_name (gate w)) suspending))
       (entered who w)).

(** Lines 191-192 and 207-208: the stamp, then the client. *)
Definition stamp_and_dispatch (who : nat) (env : CallEnv) (suspending : bool)
    (input : Input) (config : Config) (w : World) : World * (Exn + Response) :=
  (record who (Complete (outcome env))
     (advance (duration env)
        (record who (Dispatch suspending input config)
           (store_last_call_time (clock w) (record who (Stamp (clock w)) w)))),
   outcome env).

Definition is_suspending (p : Path) : bool :=
  match p with Blocking => false | Suspending => true end.

(** The events of the blocking path, read as events of the suspending path. *)
Definition as_suspending (ev : Event) : Event :=
  mkEvent (caller ev) (at_ ev)
    match what ev with
    | Print line => Print (mkDiagnostic (shown_delay line) (shown_provider line) true)
    | Wait _ requested => Wait true requested
    | Dispatch _ input config => Dispatch true input config
    | a => a
    end.

(** Scanning the events in order: is every stamp written by a caller whose
    client call has already ended?  [completed] holds the callers whose
    client call has ended so far. *)
Fixpoint stamps_follow_completions (completed : list nat) (evs : list Event) : bool :=
  match evs with
  | [] => true
  | ev :: rest =>
      match what ev with
      | Stamp _ => existsb (Nat.eqb (caller ev)) completed
                   && stamps_follow_completions completed rest
      | Complete _ => stamps_follow_completions (caller ev :: completed) rest
      | _ => stamps_follow_completions completed rest
      end
  end.

(** [spaced] for instants listed newest first, as the log keeps them. *)
Fixpoint spaced_down (d : Q) (ts : list Q) : Prop :=
  match ts with
  | t2 :: (t1 :: _) as rest => (t1 + d <= t2)%Q /\ spaced_down d rest
  | _ => True
  end.

(** What holds of the world between two calls: the interval is [d], the
    dispatches so far are [d] apart, and the stored stamp is the instant of
    the latest dispatch. *)
Definition settled (d : Q) (w : World) : Prop :=
  _delay_seconds (gate w) = d
  /\ spaced_down d (map at_ (List.filter is_dispatch (log w)))
  /\ match List.filter is_dispatch (log w) with
     | ev :: _ => at_ ev = _last_call_time (gate w)
     | [] => True
     end.

(** ** Coroutines that share one event loop

    An asyncio event loop runs one coroutine at a time, up to its next
    [await]; a timer or an awaited call that is over makes the coroutine
    ready again, and the earliest one is resumed first.  The wrapper object
    is shared by all of them. *)

(** A coroutine that is not running: it resumes a program (a new task, or
    one whose [asyncio.sleep] is over), it awaits the client's answer, or
    an exception is about to be thrown into it. *)
Inductive Parked : Type :=
| Resume (p : Prog Response)
| Calling (k : Response -> Prog Response)
| Throw (e : Exn).

Record Coroutine : Type := mkCoroutine {
  co_id : nat;
  co_env : CallEnv;
  wake : Q;
  parked : Parked
}.

Inductive Yield : Type :=
| Finished (r : Exn + Response)
| Parks (at_time : Q) (pk : Parked).

(** A coroutine runs until it awaits or ends.  [await asyncio.sleep] and
    [await self.llm.ainvoke] give the loop back; every other operation is
    carried out at once, as for a caller that runs alone. *)
Fixpoint run_until_await (who : nat) (env : CallEnv) (p : Prog Response) (w : World)
  : World * Yield :=
  match p with
  | Ret r => (w, Finished (inr r))
  | Vis e k =>
      match e in Eff X return (X -> Prog Response) -> World * Yield with
      | asyncio_sleep secs => fun k =>
          let span := ((if Qlt_le_dec 0 secs then secs else 0) + overshoot env)%Q in
          (record who (Wait true secs) w,
           match cancelled_within env span with
           | Some c => Parks (clock w + c) (Throw CancelledError)
           | None => Parks (clock w + span) (Resume (k tt))
           end)
      | llm_ainvoke input config => fun k =>
          (record who (Dispatch true input config) w,
           Parks (clock w + duration env) (Calling k))
      | e' => fun k =>
          match handle who env e' w with
          | (w', inr x) => run_until_await who env (k x) w'
          | (w', inl exn) => (w', Finished (inl exn))
          end
      end k
  end.

Record Loop : Type := mkLoop {
  world : World;
  parked_tasks : list Coroutine;
  finished : list (nat * (Exn + Response))
}.

(** The coroutine to resume next: the one with the earliest wake-up time,
    the first of them in the queue; and the queue without it. *)
Fixpoint pick (cs : list Coroutine) : option (Coroutine * list Coroutine) :=
  match cs with
  | [] => None
  | c :: rest =>
      match pick rest with
      | None => Some (c, [])
      | Some (m, others) =>
          if Qlt_le_dec (wake m) (wake c) then Some (m, c :: others)
          else Some (c, rest)
      end
  end.

(** Resuming a coroutine at the current clock. *)
Definition resume (co : Coroutine) (w : World) : World * Yield :=
  match parked co with
  | Resume p => run_until_await (co_id co) (co_env co) p w
  | Calling k =>
      let w1 := record (co_id co) (Complete (outcome (co_env co))) w in
      match outcome (co_env co) with
      | inr r => run_until_await (co_id co) (co_env co) (k r) w1
      | inl exn => (w1, Finished (inl exn))
      end
  | Throw e => (record (co_id co) Cancel w, Finished (inl e))
  end.

(** One turn of the loop: the clock moves to the wake-up time of the
    coroutine picked (never backwards), the coroutine runs, and it is put
    at the end of the queue or among the finished ones. *)
Definition loop_step (s : Loop) : Loop :=
  match pick (parked_tasks s) with
  | None => s
  | Some (co, others) =>
      match resume co (arrive (wake co) (world s)) with
      | (w', Parks t pk) =>
          mkLoop w' (others ++ [mkCoroutine (co_id co) (co_env co) t pk]) (finished s)
      | (w', Finished r) =>
          mkLoop w' others (finished s ++ [(co_id co, r)])
      end
  end.

Fixpoint loop_steps (n : nat) (s : Loop) : Loop :=
  match n with
  | O => s
  | S n' => loop_steps n' (loop_step s)
  end.

(** [asyncio.gather] over calls of the wrapper: one task per call, numbered
    from [who], each ready from the instant it is issued. *)
Fixpoint spawn (who : nat) (cs : list Call) : list Coroutine :=
  match cs with
  | [] => []
  | c :: rest =>
      mkCoroutine who (call_env c) (issued_at c)
        (Resume (entry (path c) (call_input c) (call_config c)))
      :: spawn (S who) rest
  end.

Definition gather (who : nat) (cs : list Call) (w : World) : Loop :=
  mkLoop w (spawn who cs) [].

(** Run to the end: with [3 * length cs] turns every task of [gather] that
    calls the wrapper once is over. *)
Definition run_gather (who : nat) (cs : list Call) (w : World) : Loop :=
  loop_steps (3 * length cs) (gather who cs w).

(** ** What holds of the loop while coroutines call [ainvoke] *)

(** Lines 207-208, where a coroutine goes on when its wait is over. *)
Definition ainvoke_tail (input : Input) (config : Config) : Prog Response :=
  now ← call time_time;
  call (set_last_call_time now);;
  call (llm_ainvoke input config).

(** The stamp and the dispatch, after which the coroutine awaits the client. *)
Definition dispatch_now (who : nat) (env : CallEnv) (input : Input) (config : Config)
    (w : World) : World * Yield :=
  (record who (Dispatch true input config)
     (store_last_call_time (clock w) (record who (Stamp (clock w)) w)),
   Parks (clock w + duration env) (Calling Ret)).

(** Among the events [before] an instant [t] (newest first) there is a read
    of the stamp by [who]; the stamp read, [L], is at least [d] before [t],
    and no dispatch older than the read is later than [L]. *)
Definition covered (d : Q) (who : nat) (t : Q) (before : list Event) : Prop :=
  exists mid r older L,
    before = mid ++ r :: older
    /\ caller r = who
    /\ what r = ReadStamp L
    /\ (L + d <= t)%Q
    /\ Forall (fun e1 => is_dispatch e1 = true -> (at_ e1 <= L)%Q) older.

Definition dispatches_covered (d : Q) (evs : list Event) : Prop :=
  forall newer e2 before,
    evs = newer ++ e2 :: before ->
    is_dispatch e2 = true ->
    covered d (caller e2) (at_ e2) before.

(** A parked coroutine is a call of [ainvoke] not yet begun, one whose wait
    is running (and will be over no earlier than [d] after the stamp it
    read), one that awaits the client, or one that was cancelled. *)
Definition parked_ok (d : Q) (evs : list Event) (co : Coroutine) : Prop :=
  (0 <= overshoot (co_env co))%Q
  /\ match parked co with
     | Resume p =>
         (exists input config, p = ainvoke input config)
         \/ (exists input config, p = ainvoke_tail input config)
            /\ covered d (co_id co) (wake co) evs
     | Calling k => forall r, k r = Ret r
     | Throw _ => True
     end.

Record loop_inv (d : Q) (s : Loop) : Prop := mkLoopInv {
  inv_delay : _delay_seconds (gate (world s)) = d;
  inv_clock : (_last_call_time (gate (world s)) <= clock (world s))%Q;
  inv_stamp : Forall (fun e => is_dispatch e = true ->
                               (at_ e <= _last_call_time (gate (world s)))%Q)
                     (log (world s));
  inv_log : dispatches_covered d (log (world s));
  inv_parked : Forall (parked_ok d (log (world s))) (parked_tasks s)
}.

(** ** Notions for the further properties *)

(** Between two calls: the interval is not positive and the stamp is not
    ahead of the clock. *)
Definition never_due (w : World) : Prop :=
  (_delay_seconds (gate w) <= 0)%Q
  /\ (_last_call_time (gate w) <= clock w)%Q.

(** How many turns of the loop a parked call of [ainvoke] still takes: three
    when it has not begun, two when its wait is running, one when it awaits
    the client or is about to be cancelled. *)
Inductive turns_left : Coroutine -> nat -> Prop :=
| turns_begin co input config :
    parked co = Resume (ainvoke input config) -> turns_left co 3
| turns_wake co input config :
    parked co = Resume (ainvoke_tail input config) -> turns_left co 2
| turns_answer co k :
    parked co = Calling k -> (forall r, k r = Ret r) -> turns_left co 1
| turns_throw co :
    parked co = Throw CancelledError -> turns_left co 1.

Inductive budget : list Coroutine -> nat -> Prop :=
| budget_nil : budget [] 0
| budget_cons co k cs b :
    turns_left co k -> budget cs b -> budget (co :: cs) (k + b).

(** The coroutine numbered [i] runs the call at position [i - who]. *)
Definition of_call (who : nat) (cs : list Call) (co : Coroutine) : Prop :=
  exists c, cs !! (co_id co - who)%nat = Some c /\ co_env co = call_env c.

(** The caller numbered [i] got what the client returned or raised for its
    call, or [CancelledError]. *)
Definition answered (who : nat) (cs : list Call) (ir : nat * (Exn + Response)) : Prop :=
  exists c, cs !! (ir.1 - who)%nat = Some c
            /\ (ir.2 = outcome (call_env c) \/ ir.2 = inl CancelledError).

Record loop_progress (who : nat) (cs : list Call) (b : nat) (s : Loop) : Prop :=
  mkLoopProgress {
  prog_budget : budget (parked_tasks s) b;
  prog_calls : Forall (of_call who cs) (parked_tasks s);
  prog_ids : map co_id (parked_tasks s) ++ map fst (finished s) ≡ₚ seq who (length cs);
  prog_done : Forall (answered who cs) (finished s)
}.

(** * The conversation display of the tests

    [backend/tests/utils/conversation_display.py] prints what a test did.
    A text is a [string], one character each; the pictographs of the
    literals are kept as the bytes of the source file.  What is printed is
    the list of the arguments of [print], in order. *)

From stdpp Require pretty.

(** [str(n)] for an integer, as an f-string shows it. *)
Definition str_int (z : Z) : string := pretty.pretty z.

Definition str_len (n : nat) : string := pretty.pretty n.

(** The line break, and ['x' * n]. *)
Definition nl : string := String (ascii_of_nat 10) "".

Fixpoint rep (s : string) (n : nat) : string :=
  match n with
  | O => ""
  | S k => s +:+ rep s k
  end.

(** What the display code sees of a Python value: [str(value)], which is
    also what an f-string shows, [type(value).__name__],
    [isinstance(value, (dict, list))], and [json.dumps(value, indent=2)],
    which raises for a value that cannot be serialised. *)
Record PyObj : Type := mkPyObj {
  obj_str : string;
  obj_type_name : string;
  obj_is_dict_or_list : bool;
  obj_json : Exn + string
}.

(** A dictionary with string keys, in insertion order. *)
Abbreviation Dict := (list (string * PyObj)).

(** Printing: the lines so far, and a value or the exception that ended it. *)
Record Printed (A : Type) : Type := mkPrinted {
  lines : list string;
  result : Exn + A
}.

Arguments mkPrinted {A} lines result.
Arguments lines {A} p.
Arguments result {A} p.

Definition py_print (s : string) : Printed unit := mkPrinted [s] (inr tt).

Definition raise {A : Type} (e : Exn) : Printed A := mkPrinted [] (inl e).

#[global] Instance Printed_ret : MRet Printed := fun A a => mkPrinted [] (inr a).

#[global] Instance Printed_bind : MBind Printed := fun A B f m =>
  match result m with
  | inr a => mkPrinted (lines m ++ lines (f a)) (result (f a))
  | inl e => mkPrinted (lines m) (inl e)
  end.

(** [for x in items: body]. *)
Fixpoint for_each {A : Type} (items : list A) (body : A -> Printed unit) : Printed unit :=
  match items with
  | [] => mret tt
  | x :: rest => body x;; for_each rest body
  end.

(** [if value:] for an optional text, an optional dictionary and an
    optional number: [None], the empty text, the empty dictionary and zero
    are false. *)
Definition if_text {A : Type} (value : option string) (yes : string -> A) (no : A) : A :=
  match value with
  | Some s => if String.eqb s "" then no else yes s
  | None => no
  end.

Definition if_dict {A : Type} (value : option Dict) (yes : Dict -> A) (no : A) : A :=
  match value with
  | Some (item :: items) => yes (item :: items)
  | _ => no
  end.

Definition if_number {A : Type} (value : option Q) (yes : Q -> A) (no : A) : A :=
  match value with
  | Some q => if Qeq_bool q 0 then no else yes q
  | None => no
  end.

(** [a / b] on numbers. *)
Definition true_div (a b : Q) : Printed Q :=
  if Qeq_bool b 0 then raise (Raised "ZeroDivisionError") else mret (a / b)%Q.

(** [sub in s]. *)
Fixpoint contains (sub s : string) : bool :=
  String.prefix sub s
  || match s with
     | EmptyString => false
     | String _ rest => contains sub rest
     end.

(** [s.split(sep)] for a separator that is not empty: [skip] characters of
    a separator just found are still to be passed over, [cur] is the piece
    being read. *)
Fixpoint split_from (sep s : string) (skip : nat) (cur : string) : list string :=
  match s with
  | EmptyString => [cur]
  | String c rest =>
      match skip with
      | S k => split_from sep rest k cur
      | O =>
          if String.prefix sep s
          then cur :: split_from sep rest (String.length sep - 1) ""
          else split_from sep rest 0 (cur +:+ String c "")
      end
  end.

Definition str_split (s sep : string) : list string := split_from sep s 0 "".

(** [s[:n]]. *)
Fixpoint take_chars (n : nat) (s : string) : string :=
  match n, s with
  | S k, String c rest => String c (take_chars k rest)
  | _, _ => ""
  end.

(** The number of characters of [s] that are [c]. *)
Fixpoint count_char (c : ascii) (s : string) : nat :=
  match s with
  | EmptyString => 0
  | String x rest => (if Ascii.eqb x c then 1 else 0) + count_char c rest
  end.

Module ConversationDisplayManager.

Record t : Type := mk {
  test_name : string;
  verbose : bool;
  conversation_turns : Z;
  total_interactions : Z;
  start_time : Q
}.

(** [__init__(self, test_name="DMMAS_Test", verbose=True)]; [now] is what
    [time.time()] returns. *)
Definition init (now : Q) (test_name : string) (verbose : bool) : t :=
  mk test_name verbose 0 0 now.

Section Methods.

(** The library's formatting: [fixed n x] is [x] under the format [.nf];
    [str_upper] and [str_lower] are [str.upper] and [str.lower]. *)
Variable fixed : nat -> Q -> string.
Variables str_upper str_lower : string -> string.

(** [display_conversation_turn(self, turn_num, user_msg, agent_response,
    agent_name="AGENT", context=None)]. *)
Definition display_conversation_turn (now : Q) (self : t) (turn_num : Z)
    (user_msg agent_response agent_name : string) (context : option Dict)
  : t * Printed unit :=
  if negb (verbose self) then (self, mret tt)
  else
    let self := mk (test_name self) (verbose self) turn_num
                   (total_interactions self) (start_time self) in
    (self,
     py_print (nl +:+ rep "=" 80);;
     py_print ("🔄 CONVERSATION TURN " +:+ str_int turn_num);;
     py_print ("🤖 AGENT: " +:+ agent_name);;
     py_print (rep "=" 80);;
     py_print "👤 USER MESSAGE:";;
     py_print ("   " +:+ user_msg);;
     if_dict context
       (fun items =>
          py_print (nl +:+ "📋 CONTEXT:");;
          for_each items (fun kv => py_print ("   " +:+ kv.1 +:+ ": " +:+ obj_str kv.2)))
       (mret tt);;
     py_print (nl +:+ "🤖 " +:+ agent_name +:+ " FULL RESPONSE:");;
     py_print (rep "-" 80);;
     py_print agent_response;;
     py_print (rep "-" 80);;
     let response_lines := str_split agent_response nl in
     py_print "📊 RESPONSE METRICS:";;
     py_print ("   📏 Character Count: " +:+ str_len (String.length agent_response));;
     py_print ("   📝 Line Count: " +:+ str_len (length response_lines));;
     py_print ("   ⏱️  Response Time: " +:+ fixed 2 (now - start_time self) +:+ "s")).

(** [display_tool_interaction(self, tool_name, tool_input, tool_output,
    execution_time=0.0, error=None)]. *)
Definition display_tool_interaction (self : t) (tool_name : string) (tool_input : Dict)
    (tool_output : PyObj) (execution_time : Q) (error : option string)
  : t * Printed unit :=
  if negb (verbose self) then (self, mret tt)
  else
    let self := mk (test_name self) (verbose self) (conversation_turns self)
                   (total_interactions self + 1) (start_time self) in
    (self,
     py_print (nl +:+ rep "=" 60);;
     py_print ("🔧 TOOL INTERACTION #" +:+ str_int (total_interactions self));;
     py_print ("🛠️  Tool: " +:+ tool_name);;
     py_print (rep "=" 60);;
     py_print "📥 TOOL INPUT:";;
     for_each tool_input (fun kv => py_print ("   " +:+ kv.1 +:+ ": " +:+ obj_str kv.2));;
     (if Qlt_le_dec 0 execution_time
      then py_print (nl +:+ "⏱️  Execution Time: " +:+ fixed 3 execution_time +:+ "s")
      else mret tt);;
     if_text error
       (fun error =>
          py_print (nl +:+ "❌ TOOL ERROR:");;
          py_print (rep "-" 40);;
          py_print error;;
          py_print (rep "-" 40))
       (py_print (nl +:+ "📤 TOOL OUTPUT:");;
        py_print (rep "-" 40);;
        (if obj_is_dict_or_list tool_output
         then match obj_json tool_output with
              | inr text => py_print text
              | inl e => raise e
              end
         else py_print (obj_str tool_output));;
        py_print (rep "-" 40));;
     let output_str := if_text error (fun error => error) (obj_str tool_output) in
     py_print "📊 OUTPUT METRICS:";;
     py_print ("   📏 Character Count: " +:+ str_len (String.length output_str));;
     py_print ("   📝 Type: " +:+ obj_type_name tool_output)).

(** The table [indicators] of [display_agent_conversation]. *)
Definition indicators : list (string * list string) :=
  [ ("🎯 Actions", ["create"; "update"; "generate"; "analyze"; "schedule"]);
    ("🔗 References", ["project"; "task"; "document"; "team"; "client"]);
    ("⚠️  Concerns", ["error"; "issue"; "problem"; "failure"; "warning"]) ].

(** The separator of line 183: a backslash and the letter n.  The literal
    stands inside an f-string and is written with two backslashes; Python
    3.12 and later read it as an escaped backslash, earlier versions refuse
    a backslash at that place. *)
Definition backslash_n : string := String (ascii_of_nat 92) "n".

(** [display_agent_conversation(self, agent_name, user_message,
    agent_response, context=None, state_changes=None)]. *)
Definition display_agent_conversation (self : t)
    (agent_name user_message agent_response : string)
    (context state_changes : option Dict) : t * Printed unit :=
  if negb (verbose self) then (self, mret tt)
  else
    (self,
     py_print (nl +:+ rep "=" 70);;
     py_print "🤖 AGENT CONVERSATION";;
     py_print ("👨‍💼 Agent: " +:+ agent_name);;
     py_print (rep "=" 70);;
     py_print "👤 USER:";;
     py_print ("   " +:+ user_message);;
     if_dict context
       (fun items =>
          py_print (nl +:+ "📋 CONVERSATION CONTEXT:");;
          for_each items (fun kv =>
            py_print ("   " +:+ kv.1 +:+ ": " +:+ take_chars 100 (obj_str kv.2)
                   +:+ (if (100 <? String.length (obj_str kv.2))%nat then "..." else ""))))
       (mret tt);;
     py_print (nl +:+ "🤖 " +:+ str_upper agent_name +:+ " RESPONSE:");;
     py_print (rep "-" 70);;
     py_print agent_response;;
     py_print (rep "-" 70);;
     if_dict state_changes
       (fun items =>
          py_print (nl +:+ "🔄 STATE CHANGES:");;
          for_each items (fun kv => py_print ("   " +:+ kv.1 +:+ ": " +:+ obj_str kv.2)))
       (mret tt);;
     py_print (nl +:+ "📊 RESPONSE ANALYSIS:");;
     py_print ("   📏 Response Length: " +:+ str_len (String.length agent_response) +:+ " characters");;
     py_print ("   📝 Response Lines: " +:+ str_len (length (str_split agent_response backslash_n)) +:+ " lines");;
     let response_lower := str_lower agent_response in
     for_each indicators (fun entry =>
       let found := List.filter (fun kw => contains kw response_lower) entry.2 in
       match found with
       | _ :: _ => py_print ("   " +:+ entry.1 +:+ ": " +:+ String.concat ", " found)
       | [] => mret tt
       end)).

(** [display_error_scenario(self, error_type, error_message,
    stack_trace=None, recovery_action=None)]; [now_text] is what
    [datetime.now().strftime('%H:%M:%S')] returns. *)
Definition display_error_scenario (now_text : string) (self : t)
    (error_type error_message : string) (stack_trace recovery_action : option string)
  : t * Printed unit :=
  if negb (verbose self) then (self, mret tt)
  else
    (self,
     py_print (nl +:+ rep "=" 80);;
     py_print "❌ ERROR SCENARIO";;
     py_print ("🏷️  Type: " +:+ error_type);;
     py_print ("⏰ Time: " +:+ now_text);;
     py_print (rep "=" 80);;
     py_print "📋 ERROR MESSAGE:";;
     py_print (rep "-" 50);;
     py_print error_message;;
     py_print (rep "-" 50);;
     if_text stack_trace
       (fun stack_trace =>
          py_print (nl +:+ "📚 STACK TRACE:");;
          py_print (rep "-" 50);;
          py_print stack_trace;;
          py_print (rep "-" 50))
       (mret tt);;
     if_text recovery_action
       (fun recovery_action =>
          py_print (nl +:+ "🔧 RECOVERY ACTION:");;
          py_print ("   " +:+ recovery_action))
       (mret tt);;
     py_print (nl +:+ "📊 ERROR METRICS:");;
     py_print ("   📏 Message Length: " +:+ str_len (String.length error_message) +:+ " characters");;
     if_text stack_trace
       (fun stack_trace =>
          py_print ("   📚 Stack Trace Length: " +:+ str_len (String.length stack_trace) +:+ " characters"))
       (mret tt)).

(** [display_test_summary(self, total_tests, passed, failed,
    total_time=None)]; [now_text] is what
    [datetime.now().strftime('%Y-%m-%d %H:%M:%S')] returns. *)
Definition display_test_summary (now_text : string) (self : t)
    (total_tests passed failed : Z) (total_time : option Q) : t * Printed unit :=
  if negb (verbose self) then (self, mret tt)
  else
    (self,
     py_print (nl +:+ rep "=" 80);;
     py_print ("📋 TEST SUMMARY - " +:+ test_name self);;
     py_print (rep "=" 80);;
     py_print ("🎯 Total Tests: " +:+ str_int total_tests);;
     py_print ("✅ Passed: " +:+ str_int passed);;
     py_print ("❌ Failed: " +:+ str_int failed);;
     rate ← true_div (inject_Z passed) (inject_Z total_tests);
     py_print ("📊 Success Rate: " +:+ fixed 1 (rate * 100) +:+ "%");;
     if_number total_time
       (fun total_time =>
          py_print ("⏱️  Total Time: " +:+ fixed 2 total_time +:+ "s");;
          average ← true_div total_time (inject_Z total_tests);
          py_print ("⚡ Average Time per Test: " +:+ fixed 2 average +:+ "s"))
       (mret tt);;
     py_print ("💬 Conversation Turns: " +:+ str_int (conversation_turns self));;
     py_print ("🔧 Tool Interactions: " +:+ str_int (total_interactions self));;
     py_print (nl +:+ "🏁 Test Completed: " +:+ now_text);;
     py_print (rep "=" 80)).

End Methods.

End ConversationDisplayManager.

(** ** The functions of the module *)

(** [display_conversation_turn(turn_num, user_msg, agent_response,
    agent_name="AGENT", context=None)]: a new manager is made for the call. *)
Definition display_conversation_turn (fixed : nat -> Q -> string) (now : Q)
    (turn_num : Z) (user_msg agent_response agent_name : string)
    (context : option Dict) : Printed unit :=
  let display_manager := ConversationDisplayManager.init now "DMMAS_Test" true in
  (ConversationDisplayManager.display_conversation_turn fixed now display_manager
     turn_num user_msg agent_response agent_name context).2.

(** [display_tool_interaction(tool_name, tool_input, tool_output,
    execution_time=0.0, error=None)]. *)
Definition display_tool_interaction (fixed : nat -> Q -> string) (now : Q)
    (tool_name : string) (tool_input : Dict) (tool_output : PyObj)
    (execution_time : Q) (error : option string) : Printed unit :=
  let display_manager := ConversationDisplayManager.init now "DMMAS_Test" true in
  (ConversationDisplayManager.display_tool_interaction fixed display_manager
     tool_name tool_input tool_output execution_time error).2.

(** [display_agent_conversation(agent_name, user_message, agent_response,
    context=None, state_changes=None)]. *)
Definition display_agent_conversation (str_upper str_lower : string -> string) (now : Q)
    (agent_name user_message agent_response : string)
    (context state_changes : option Dict) : Printed unit :=
  let display_manager := ConversationDisplayManager.init now "DMMAS_Test" true in
  (ConversationDisplayManager.display_agent_conversation str_upper str_lower
     display_manager agent_name user_message agent_response context state_changes).2.

(** [display_error_scenario(error_type, error_message, stack_trace=None,
    recovery_action=None)]. *)
Definition display_error_scenario (now : Q) (now_text : string)
    (error_type error_message : string) (stack_trace recovery_action : option string)
  : Printed unit :=
  let display_manager := ConversationDisplayManager.init now "DMMAS_Test" true in
  (ConversationDisplayManager.display_error_scenario now_text display_manager
     error_type error_message stack_trace recovery_action).2.

(** [create_test_display_manager(test_name)]. *)
Definition create_test_display_manager (now : Q) (test_name : string)
  : ConversationDisplayManager.t :=
  ConversationDisplayManager.init now test_name true.

(** The table [prefixes] of [display_with_emoji_prefix]. *)
Definition prefixes : gmap string string :=
  list_to_map
    [ ("user", "👤"); ("agent", "🤖"); ("tool", "🔧"); ("context", "📋");
      ("result", "📊"); ("input", "📥"); ("output", "📤"); ("error", "❌");
      ("success", "✅"); ("info", "ℹ️"); ("warning", "⚠️"); ("workflow", "🔄");
      ("performance", "⚡"); ("summary", "📋") ].

(** [display_with_emoji_prefix(message, prefix_type="info")]. *)
Definition display_with_emoji_prefix (message prefix_type : string) : Printed unit :=
  let emoji := default "ℹ️" (prefixes !! prefix_type) in
  py_print (emoji +:+ " " +:+ message).

(** ** Notions for the properties of the display *)

(** A printing that ends without an exception. *)
Definition succeeds (m : Printed unit) : Prop := result m = inr tt.

(** One call of the method [display_tool_interaction]: its arguments. *)
Record ToolCall : Type := mkToolCall {
  tc_name : string;
  tc_input : Dict;
  tc_output : PyObj;
  tc_time : Q;
  tc_error : option string
}.

(** The manager after the calls of [calls], one after the other, whether a
    call returned or raised. *)
Fixpoint after_tool_calls (fixed : nat -> Q -> string)
    (self : ConversationDisplayManager.t) (calls : list ToolCall)
  : ConversationDisplayManager.t :=
  match calls with
  | [] => self
  | c :: rest =>
      after_tool_calls fixed
        (ConversationDisplayManager.display_tool_interaction fixed self
           (tc_name c) (tc_input c) (tc_output c) (tc_time c) (tc_error c)).1
        rest
  end.

(** The first lines of every tool interaction printed by the function of
    the module. *)
Definition first_tool_heading : list string :=
  [ nl +:+ rep "=" 60; "🔧 TOOL INTERACTION #" +:+ "1" ].

Definition line_count_line (n : nat) : string := "   📝 Line Count: " +:+ str_len n.

Definition response_lines_line (n : nat) : string :=
  "   📝 Response Lines: " +:+ str_len n +:+ " lines".

(** The lines of [display_test_summary] that come before the success rate. *)
Definition summary_head (self : ConversationDisplayManager.t)
    (total_tests passed failed : Z) : list string :=
  [ nl +:+ rep "=" 80;
    "📋 TEST SUMMARY - " +:+ ConversationDisplayManager.test_name self;
    rep "=" 80;
    "🎯 Total Tests: " +:+ str_int total_tests;
    "✅ Passed: " +:+ str_int passed;
    "❌ Failed: " +:+ str_int failed ].

(** The lines of a tool interaction numbered [number], down to the rule
    under the heading of the output. *)
Definition tool_head (fixed : nat -> Q -> string) (number : Z) (tool_name : string)
    (tool_input : Dict) (execution_time : Q) : list string :=
  [ nl +:+ rep "=" 60;
    "🔧 TOOL INTERACTION #" +:+ str_int number;
    "🛠️  Tool: " +:+ tool_name;
    rep "=" 60;
    "📥 TOOL INPUT:" ]
  ++ map (fun kv : string * PyObj => "   " +:+ kv.1 +:+ ": " +:+ obj_str kv.2) tool_input
  ++ (if Qlt_le_dec 0 execution_time
      then [ nl +:+ "⏱️  Execution Time: " +:+ fixed 3 execution_time +:+ "s" ]
      else [])
  ++ [ nl +:+ "📤 TOOL OUTPUT:"; rep "-" 40 ].

(** A line of context as [display_conversation_turn] shows it, and as
    [display_agent_conversation] shows it when the value has more than 100
    characters. *)
Definition context_line (key : string) (value : PyObj) : string :=
  "   " +:+ key +:+ ": " +:+ obj_str value.

Definition cut_context_line (key : string) (value : PyObj) : string :=
  "   " +:+ key +:+ ": " +:+ take_chars 100 (obj_str value) +:+ "...".

(** One call of the method [display_conversation_turn]: the clock and the
    arguments. *)
Record TurnCall : Type := mkTurnCall {
  tn_now : Q;
  tn_num : Z;
  tn_user : string;
  tn_response : string;
  tn_agent : string;
  tn_context : option Dict
}.

(** The manager after the calls of [calls], one after the other. *)
Fixpoint after_turns (fixed : nat -> Q -> string)
    (self : ConversationDisplayManager.t) (calls : list TurnCall)
  : ConversationDisplayManager.t :=
  match calls with
  | [] => self
  | c :: rest =>
      after_turns fixed
        (ConversationDisplayManager.display_conversation_turn fixed (tn_now c) self
           (tn_num c) (tn_user c) (tn_response c) (tn_agent c) (tn_context c)).1
        rest
  end.
(** * Properties *)

(** ** The constructor *)

Lemma filtered_kwargs_lookup (kwargs : gmap string PyVal) (k : string) :
  filtered_kwargs kwargs !! k =
  if decide (k ∈ custom_parameters) then None else kwargs !! k.
Proof.
  unfold filtered_kwargs. case_decide as Hk.
  - apply map_lookup_filter_None. right. intros v _ Hn. apply Hn. exact Hk.
  - destruct (kwargs !! k) as [v|] eqn:E.
    + apply map_lookup_filter_Some. split; [exact E | exact Hk].
    + apply map_lookup_filter_None. left. exact E.
Qed.

Lemma DelayedLLM_init_unfold build environ d u kwargs :
  DelayedLLM_init build environ d u kwargs =
  match build (provider_class u) (constructor_kwargs environ u kwargs) with
  | inr client => inr (mkDelayedLLM d 0 u client)
  | inl e => inl e
  end.
Proof. destruct u; reflexivity. Qed.

Lemma openrouter_kwargs_lookup environ kwargs (k : string) :
  openrouter_kwargs environ kwargs !! k =
  if decide (k = "api_key") then Some (getenv environ "OPEN_ROUTER_API_KEY")
  else if decide (k = "custom_llm_provider") then Some (VStr "openrouter")
  else if decide (k = "base_url") then Some (VStr "https://openrouter.ai/api/v1")
  else filtered_kwargs kwargs !! k.
Proof.
  unfold openrouter_kwargs.
  repeat (case_decide; [subst; simplify_map_eq; reflexivity|]).
  rewrite !lookup_insert_ne by congruence. reflexivity.
Qed.

Lemma gemini_kwargs_lookup environ kwargs (k : string) :
  gemini_kwargs environ kwargs !! k =
  if decide (k = "api_key") then Some (getenv environ "GEMINI_API_KEY")
  else filtered_kwargs kwargs !! k.
Proof.
  unfold gemini_kwargs.
  case_decide; [subst; simplify_map_eq; reflexivity|].
  rewrite lookup_insert_ne by congruence. reflexivity.
Qed.

(** C5, as the code has it.  When the credential of the selected provider is
    not in the environment, [__init__] raises nothing of its own: it calls
    the constructor of the selected client with [api_key = None], returns
    the wrapper when that constructor returns and lets the constructor's
    exception through when it raises. *)
Theorem absent_credential_forwarded_as_None build environ d u kwargs :
  environ !! credential_variable u = None ->
  constructor_kwargs environ u kwargs !! "api_key" = Some VNone
  /\ DelayedLLM_init build environ d u kwargs =
     match build (provider_class u) (constructor_kwargs environ u kwargs) with
     | inr client => inr (mkDelayedLLM d 0 u client)
     | inl e => inl e
     end.
Proof.
  intros Habsent. split; [|apply DelayedLLM_init_unfold].
  destruct u; simpl in *.
  - rewrite openrouter_kwargs_lookup. simpl. unfold getenv. rewrite Habsent. reflexivity.
  - rewrite gemini_kwargs_lookup. simpl. unfold getenv. rewrite Habsent. reflexivity.
Qed.

Lemma absent_credential_forwarded_as_None_witness :
  (@empty Environ _) !! credential_variable true = None
  /\ constructor_kwargs ∅ true {[ "model" := VStr "m" ]} !! "api_key" = Some VNone
  /\ DelayedLLM_init instantiate ∅ 60 true {[ "model" := VStr "m" ]} =
     match instantiate (provider_class true)
             (constructor_kwargs ∅ true {[ "model" := VStr "m" ]}) with
     | inr client => inr (mkDelayedLLM 60 0 true client)
     | inl e => inl e
     end.
Proof.
  split; [reflexivity|].
  apply (absent_credential_forwarded_as_None instantiate ∅ 60 true {[ "model" := VStr "m" ]}).
  reflexivity.
Defined.

(** C5, refuted as stated: with the primary provider selected and
    [OPEN_ROUTER_API_KEY] unset, construction does not fail; the client is
    built, with [api_key = None]. *)
Lemma missing_credential_is_not_raised :
  (@empty Environ _) !! "OPEN_ROUTER_API_KEY" = None
  /\ (forall e, DelayedLLM_init instantiate ∅ 60 true ∅ <> inl e)
  /\ exists self, DelayedLLM_init instantiate ∅ 60 true ∅ = inr self
       /\ client_class (llm self) = ChatLiteLLM
       /\ init_kwargs (llm self) !! "api_key" = Some VNone.
Proof.
  split; [reflexivity|]. split.
  - intros e. discriminate.
  - eexists. split; [reflexivity|]. split; [reflexivity|]. vm_compute. reflexivity.
Qed.

(** C7, as the code has it.  The constructor of the selected client is
    called with arguments in which neither ["delay_seconds"] nor
    ["use_openrouter"] occurs, whatever [kwargs] holds, and every other key
    that [__init__] does not inject itself (["base_url"],
    ["custom_llm_provider"] and ["api_key"] for OpenRouter, ["api_key"] for
    Gemini) has there the value it has in [kwargs]. *)
Theorem custom_parameters_are_not_forwarded environ d (u : bool) kwargs (k : string) :
  k ∉ (if u then ["base_url"; "custom_llm_provider"; "api_key"] else ["api_key"]) ->
  exists kw : gmap string PyVal,
    (forall build : Constructor,
       DelayedLLM_init build environ d u kwargs
       = match build (if u then ChatLiteLLM else ChatGoogleGenerativeAI) kw with
         | inr client => inr (mkDelayedLLM d 0 u client)
         | inl e => inl e
         end)
    /\ kw !! "delay_seconds" = None
    /\ kw !! "use_openrouter" = None
    /\ (k <> "delay_seconds" -> k <> "use_openrouter" -> kw !! k = kwargs !! k).
Proof.
  intros Hk.
  assert (Hd : forall kwargs : gmap string PyVal,
             filtered_kwargs kwargs !! "delay_seconds" = None).
  { intros m. rewrite filtered_kwargs_lookup.
    destruct (decide ("delay_seconds" ∈ custom_parameters)) as [_|Hn]; [reflexivity|].
    exfalso. apply Hn. unfold custom_parameters. set_solver. }
  assert (Hu : forall kwargs : gmap string PyVal,
             filtered_kwargs kwargs !! "use_openrouter" = None).
  { intros m. rewrite filtered_kwargs_lookup.
    destruct (decide ("use_openrouter" ∈ custom_parameters)) as [_|Hn]; [reflexivity|].
    exfalso. apply Hn. unfold custom_parameters. set_solver. }
  assert (Hf : k <> "delay_seconds" -> k <> "use_openrouter" ->
               filtered_kwargs kwargs !! k = kwargs !! k).
  { intros H1 H2. rewrite filtered_kwargs_lookup.
    destruct (decide (k ∈ custom_parameters)) as [Hin|_]; [|reflexivity].
    exfalso. apply list_elem_of_In in Hin. simpl in Hin.
    destruct Hin as [<-|[<-|[]]]; congruence. }
  destruct u.
  - exists (openrouter_kwargs environ kwargs).
    split; [intros build; reflexivity|].
    rewrite !openrouter_kwargs_lookup.
    repeat (destruct (decide _) as [Heq|_]; [try discriminate Heq|]);
      try (exfalso; apply Hk; subst k; set_solver).
    repeat split; auto.
  - exists (gemini_kwargs environ kwargs).
    split; [intros build; reflexivity|].
    rewrite !gemini_kwargs_lookup.
    repeat (destruct (decide _) as [Heq|_]; [try discriminate Heq|]);
      try (exfalso; apply Hk; subst k; set_solver).
    repeat split; auto.
Qed.

Lemma custom_parameters_are_not_forwarded_witness :
  let kwargs : gmap string PyVal :=
    {[ "delay_seconds" := VInt 5; "use_openrouter" := VBool false;
       "model" := VStr "m" ]} in
  ("model" ∉ ["base_url"; "custom_llm_provider"; "api_key"])
  /\ kwargs !! "delay_seconds" = Some (VInt 5)
  /\ kwargs !! "use_openrouter" = Some (VBool false)
  /\ exists kw : gmap string PyVal,
       forwarded (DelayedLLM_init instantiate ∅ 60 true kwargs) = Some kw
       /\ kw !! "delay_seconds" = None
       /\ kw !! "use_openrouter" = None
       /\ kw !! "model" = Some (VStr "m").
Proof.
  intros kwargs.
  assert (H : "model" ∉ ["base_url"; "custom_llm_provider"; "api_key"]).
  { intros Hin.
    repeat (inversion Hin as [|? ? ? Hin']; subst; clear Hin; rename Hin' into Hin). }
  split; [exact H|]. split; [vm_compute; reflexivity|]. split; [vm_compute; reflexivity|].
  destruct (custom_parameters_are_not_forwarded ∅ 60 true kwargs "model" H)
    as (kw & Hbuild & Hdelay & Hprovider & Hother).
  exists kw. split; [rewrite (Hbuild instantiate); reflexivity|].
  split; [exact Hdelay|]. split; [exact Hprovider|].
  rewrite Hother by discriminate. vm_compute. reflexivity.
Defined.

(** C7, refuted as stated: a key of [kwargs] other than the two custom
    parameters is not always forwarded unchanged.  An ["api_key"] passed by
    the caller is replaced by the value read from the environment. *)
Lemma caller_api_key_is_replaced :
  "api_key" <> "delay_seconds"
  /\ "api_key" <> "use_openrouter"
  /\ ({[ "api_key" := VStr "sk-caller" ]} : gmap string PyVal) !! "api_key"
     = Some (VStr "sk-caller")
  /\ exists self,
       DelayedLLM_init instantiate {[ "OPEN_ROUTER_API_KEY" := "sk-env" ]} 60 true
         {[ "api_key" := VStr "sk-caller" ]} = inr self
       /\ init_kwargs (llm self) !! "api_key" = Some (VStr "sk-env").
Proof.
  split; [discriminate|]. split; [discriminate|].
  split; [vm_compute; reflexivity|].
  eexists. split; [reflexivity|]. vm_compute. reflexivity.
Qed.


(** ** The settings resolver *)

Lemma model_fields_NoDup : NoDup (map fst model_fields).
Proof. apply NoDup_ListNoDup. repeat constructor; simpl; intuition discriminate. Qed.

Lemma lookup_comprehension {V : Type} (f : string -> V) (l : list string) (name : string) :
  (list_to_map (map (fun n => (n, f n)) l) : gmap string V) !! name =
  if decide (name ∈ l) then Some (f name) else None.
Proof.
  induction l as [|n l IH].
  - change (map _ []) with (@nil (string * V)). rewrite list_to_map_nil, lookup_empty.
    destruct (decide (name ∈ [])) as [H|H]; [inversion H | reflexivity].
  - change (map (fun n => (n, f n)) (n :: l))
      with ((n, f n) :: map (fun n => (n, f n)) l).
    rewrite list_to_map_cons.
    destruct (decide (n = name)) as [->|Hne].
    + rewrite lookup_insert_eq.
      destruct (decide (name ∈ name :: l)) as [H|H]; [reflexivity|].
      exfalso. apply H. left.
    + rewrite lookup_insert_ne by exact Hne. rewrite IH.
      destruct (decide (name ∈ l)) as [H|H];
        destruct (decide (name ∈ n :: l)) as [H0|H0]; try reflexivity.
      * exfalso. apply H0. right. exact H.
      * exfalso. apply H. inversion H0; subst; [congruence | assumption].
Qed.

Lemma raw_values_lookup environ configurable name :
  raw_values environ configurable !! name =
  if decide (name ∈ map fst model_fields)
  then Some (raw_value environ configurable name) else None.
Proof. unfold raw_values. apply lookup_comprehension. Qed.

Lemma values_lookup environ configurable name :
  values environ configurable !! name =
  if decide (name ∈ map fst model_fields)
  then (if is_None (raw_value environ configurable name) then None
        else Some (raw_value environ configurable name))
  else None.
Proof.
  unfold values.
  destruct (decide (name ∈ map fst model_fields)) as [Hin|Hin].
  - destruct (is_None (raw_value environ configurable name)) eqn:E.
    + apply map_lookup_filter_None. right. intros v Hv. simpl.
      rewrite raw_values_lookup in Hv.
      destruct (decide (name ∈ map fst model_fields)); [|discriminate].
      injection Hv as <-. rewrite E. discriminate.
    + apply map_lookup_filter_Some. split; [|exact E].
      rewrite raw_values_lookup.
      destruct (decide (name ∈ map fst model_fields)); [reflexivity | contradiction].
  - apply map_lookup_filter_None. left. rewrite raw_values_lookup.
    destruct (decide (name ∈ map fst model_fields)); [contradiction | reflexivity].
Qed.

Lemma model_fields_default name dflt :
  (name, dflt) ∈ model_fields ->
  (list_to_map model_fields : gmap string PyVal) !! name = Some dflt.
Proof.
  intros Hin. apply elem_of_list_to_map; [|exact Hin].
  apply model_fields_NoDup.
Qed.

Lemma configurable_of_lookup (config : option RunnableConfig) (name : string) :
  configurable_of config !! name =
  match config with
  | Some c =>
      match c !! "configurable" with
      | Some entries => entries !! name
      | None => None
      end
  | None => None
  end.
Proof.
  destruct config as [c|]; [|apply lookup_empty]. unfold configurable_of.
  destruct (bool_decide (c = ∅)) eqn:E.
  - apply bool_decide_eq_true in E. subst c. rewrite !lookup_empty. reflexivity.
  - destruct (c !! "configurable"); [reflexivity | apply lookup_empty].
Qed.

Lemma environment_variables_fields :
  map fst environment_variables = map fst model_fields.
Proof. reflexivity. Qed.

Lemma environment_variables_upper name variable :
  (name, variable) ∈ environment_variables ->
  upper name = variable /\ name ∈ map fst model_fields.
Proof.
  intros H. split.
  - apply list_elem_of_In in H. simpl in H.
    repeat (destruct H as [H|H]; [injection H as <- <-; reflexivity|]).
    destruct H.
  - rewrite <- environment_variables_fields.
    apply list_elem_of_fmap. exists (name, variable). split; [reflexivity | exact H].
Qed.

Lemma field_has_variable name :
  name ∈ map fst model_fields ->
  exists variable ty, (name, variable) ∈ environment_variables
                      /\ annotations !! name = Some ty.
Proof.
  intros H. apply list_elem_of_In in H. simpl in H.
  repeat (destruct H as [<-|H];
          [eexists _, _; split;
           [apply list_elem_of_In; simpl; auto 20 | vm_compute; reflexivity]|]).
  destruct H.
Qed.

(** The values handed to the constructor are the supplied ones. *)
Lemma values_supplied environ config name variable :
  (name, variable) ∈ environment_variables ->
  values environ (configurable_of config) !! name
  = supplied_value environ config name variable.
Proof.
  intros H. destruct (environment_variables_upper _ _ H) as [Hu Hn].
  rewrite values_lookup.
  destruct (decide (name ∈ map fst model_fields)) as [_|]; [|contradiction].
  unfold raw_value, supplied_value. rewrite Hu, configurable_of_lookup.
  destruct (environ !! variable); [reflexivity|].
  destruct config as [c|]; [|reflexivity].
  destruct (c !! "configurable") as [entries|]; [|reflexivity].
  destruct (entries !! name) as [[]|]; reflexivity.
Qed.

Lemma construct_field_name validate vals field y :
  construct_field validate vals field = Some y -> y.1 = field.1.
Proof.
  unfold construct_field. destruct (vals !! field.1).
  - destruct (annotations !! field.1) as [ty|]; [|discriminate]. simpl.
    destruct (validate ty p); [|discriminate]. simpl. intros [= <-]. reflexivity.
  - intros [= <-]. reflexivity.
Qed.

Lemma constructed_names validate vals (fields : list (string * PyVal)) :
  forall built,
    Forall2 (fun x y => construct_field validate vals x = Some y) fields built ->
    map fst built = map fst fields.
Proof.
  induction fields as [|x fields IH]; intros built H; inversion H; subst; [reflexivity|].
  simpl. f_equal; [eapply construct_field_name; eassumption | apply IH; assumption].
Qed.

(** A returned instance holds, for every declared field, what the field's
    construction gave, and nothing under another name. *)
Lemma Configuration_new_fields validate vals inst :
  Configuration_new validate vals = inr inst ->
  (forall name dflt, (name, dflt) ∈ model_fields ->
     exists y, construct_field validate vals (name, dflt) = Some (name, y)
               /\ inst !! name = Some y)
  /\ (forall k, k ∉ map fst model_fields -> inst !! k = None).
Proof.
  unfold Configuration_new.
  destruct (mapM (construct_field validate vals) model_fields) as [built|] eqn:E;
    [|discriminate].
  intros [= <-]. apply mapM_Some in E.
  pose proof (constructed_names _ _ _ _ E) as Hnames.
  split.
  - intros name dflt Hin.
    apply list_elem_of_lookup in Hin as [i Hi].
    destruct (Forall2_lookup_l _ _ _ _ _ E Hi) as ([n y] & Hy & Hc).
    pose proof (construct_field_name _ _ _ _ Hc) as Hn. simpl in Hn. subst n.
    exists y. split; [exact Hc|].
    apply elem_of_list_to_map.
    + change (NoDup (map fst built)). rewrite Hnames. apply model_fields_NoDup.
    + eapply list_elem_of_lookup_2. exact Hy.
  - intros k Hk. apply not_elem_of_list_to_map.
    change (k ∉ map fst built). rewrite Hnames. exact Hk.
Qed.

(** The constructor raises [ValidationError] and nothing else, and does so
    exactly when the construction of a field fails. *)
Lemma Configuration_new_raises validate vals :
  (forall e, Configuration_new validate vals = inl e ->
     e = Raised "ValidationError"
     /\ exists field, field ∈ model_fields
                      /\ construct_field validate vals field = None)
  /\ (forall field, field ∈ model_fields ->
       construct_field validate vals field = None ->
       Configuration_new validate vals = inl (Raised "ValidationError")).
Proof.
  unfold Configuration_new. split.
  - intros e.
    destruct (mapM (construct_field validate vals) model_fields) eqn:E; [discriminate|].
    intros [= <-]. split; [reflexivity|].
    apply mapM_None in E. apply Exists_exists in E. exact E.
  - intros field Hin Hnone.
    assert (E : mapM (construct_field validate vals) model_fields = None).
    { apply mapM_None. apply Exists_exists. exists field. split; assumption. }
    rewrite E. reflexivity.
Qed.

(** When every field can be constructed the instance is the table of the
    constructed fields. *)
Lemma from_runnable_config_built validate environ config fields :
  mapM (construct_field validate (values environ (configurable_of config)))
       model_fields = Some fields ->
  from_runnable_config validate environ config = inr (list_to_map fields)
  /\ (forall name value, (name, value) ∈ fields ->
      (list_to_map fields : gmap string PyVal) !! name = Some value).
Proof.
  intros M. unfold from_runnable_config, Configuration_new. rewrite M.
  split; [reflexivity|]. intros name value Hin.
  apply elem_of_list_to_map; [|exact Hin].
  change (NoDup (map fst fields)).
  rewrite (constructed_names _ _ _ _ (proj1 (mapM_Some _ _ _) M)).
  apply model_fields_NoDup.
Qed.

(** C10.  For every declared field, the value [from_runnable_config] hands
    to the constructor is the text of the environment variable named by the
    field name in upper case when that variable is set, otherwise the entry
    of the field in the ["configurable"] mapping when there is one and it is
    not [None], and otherwise none, so that the declared default applies.
    The instance holds what pydantic's validation makes of a supplied value;
    the call raises [ValidationError], and nothing else, exactly when a
    supplied value is refused.  Every declared field has its variable
    ([environment_variables_fields]). *)
Theorem from_runnable_config_resolution (validate : Validator) environ config
    name variable ty dflt :
  (name, variable) ∈ environment_variables ->
  (name, dflt) ∈ model_fields ->
  annotations !! name = Some ty ->
  values environ (configurable_of config) !! name
  = supplied_value environ config name variable
  /\ (forall inst, from_runnable_config validate environ config = inr inst ->
      inst !! name = match supplied_value environ config name variable with
                     | Some v => validate ty v
                     | None => Some dflt
                     end)
  /\ (forall v, supplied_value environ config name variable = Some v ->
      validate ty v = None ->
      from_runnable_config validate environ config = inl (Raised "ValidationError"))
  /\ (forall e, from_runnable_config validate environ config = inl e ->
      e = Raised "ValidationError"
      /\ exists name' variable' ty' v',
           (name', variable') ∈ environment_variables
           /\ annotations !! name' = Some ty'
           /\ supplied_value environ config name' variable' = Some v'
           /\ validate ty' v' = None).
Proof.
  intros Hvar Hin Hty.
  pose proof (values_supplied environ config name variable Hvar) as Hv.
  split; [exact Hv|]. unfold from_runnable_config. split; [|split].
  - intros inst Hinst.
    destruct (proj1 (Configuration_new_fields _ _ _ Hinst) name dflt Hin)
      as (y & Hc & Hy).
    rewrite Hy. unfold construct_field in Hc. cbn [fst snd] in Hc.
    rewrite Hv in Hc.
    destruct (supplied_value environ config name variable) as [v|].
    + rewrite Hty in Hc. simpl in Hc.
      destruct (validate ty v) as [v'|]; [|discriminate Hc].
      simpl in Hc. injection Hc as <-. reflexivity.
    + injection Hc as <-. reflexivity.
  - intros v Hs Hrefused.
    apply (proj2 (Configuration_new_raises validate _) (name, dflt) Hin).
    unfold construct_field. cbn [fst snd]. rewrite Hv, Hs, Hty. simpl.
    rewrite Hrefused. reflexivity.
  - intros e He.
    destruct (proj1 (Configuration_new_raises validate _) e He)
      as (-> & [n d] & Hfield & Hnone).
    split; [reflexivity|].
    assert (Hn : n ∈ map fst model_fields).
    { apply list_elem_of_fmap. exists (n, d). split; [reflexivity | exact Hfield]. }
    destruct (field_has_variable n Hn) as (variable' & ty' & Hvar' & Hty').
    exists n, variable', ty'.
    unfold construct_field in Hnone. cbn [fst snd] in Hnone.
    rewrite (values_supplied environ config n variable' Hvar') in Hnone.
    destruct (supplied_value environ config n variable') as [v'|]; [|discriminate Hnone].
    exists v'. rewrite Hty' in Hnone. simpl in Hnone.
    destruct (validate ty' v'); [discriminate Hnone|].
    repeat split; [exact Hvar' | exact Hty'].
Qed.

Lemma from_runnable_config_resolution_witness :
  let validate : Validator := fun ty v =>
    match ty, v with
    | TInt, VStr text => if String.eqb text "4" then Some (VInt 4) else None
    | _, _ => Some v
    end in
  let environ : Environ :=
    {[ "MAX_CONCURRENT_AGENTS" := "4"; "analysis_model" := "lower" ]} in
  let config : option RunnableConfig :=
    Some {[ "configurable" := {[ "max_concurrent_agents" := VInt 7;
                                 "document_model" := VNone;
                                 "analysis_model" := VStr "m" ]} ]} in
  (("max_concurrent_agents", "MAX_CONCURRENT_AGENTS") ∈ environment_variables)
  /\ (("max_concurrent_agents", VInt 15) ∈ model_fields)
  /\ annotations !! "max_concurrent_agents" = Some TInt
  /\ values environ (configurable_of config) !! "max_concurrent_agents"
     = Some (VStr "4")
  /\ exists inst,
       from_runnable_config validate environ config = inr inst
       /\ inst !! "max_concurrent_agents" = Some (VInt 4).
Proof.
  intros validate environ config.
  assert (Hvar : ("max_concurrent_agents", "MAX_CONCURRENT_AGENTS")
                 ∈ environment_variables).
  { apply list_elem_of_In. simpl. auto 20. }
  assert (Hin : ("max_concurrent_agents", VInt 15) ∈ model_fields).
  { apply list_elem_of_In. simpl. auto 20. }
  assert (Hty : annotations !! "max_concurrent_agents" = Some TInt)
    by (vm_compute; reflexivity).
  destruct (from_runnable_config_resolution validate environ config
              "max_concurrent_agents" "MAX_CONCURRENT_AGENTS" TInt (VInt 15)
              Hvar Hin Hty) as (Hvalues & Hinst & _).
  split; [exact Hvar|]. split; [exact Hin|]. split; [exact Hty|].
  split; [rewrite Hvalues; vm_compute; reflexivity|].
  destruct (mapM (construct_field validate (values environ (configurable_of config)))
              model_fields) as [fields|] eqn:M; [|vm_compute in M; discriminate M].
  pose proof (proj1 (from_runnable_config_built validate environ config fields M)) as E.
  exists (list_to_map fields). split; [exact E|].
  rewrite (Hinst _ E). vm_compute. reflexivity.
Defined.

(** The three sources, on one configuration, with a validation that turns
    the text ["4"] into the number 4 in an [int] field and refuses any other
    text there: the environment wins over the ["configurable"] entry, an
    entry wins over the default, an entry that is [None] leaves the default,
    a variable whose name is in lower case is not read, and a refused text
    makes the call raise. *)
Example from_runnable_config_sources :
  let validate : Validator := fun ty v =>
    match ty, v with
    | TInt, VStr text => if String.eqb text "4" then Some (VInt 4) else None
    | _, _ => Some v
    end in
  let environ : Environ :=
    {[ "MAX_CONCURRENT_AGENTS" := "4"; "analysis_model" := "lower" ]} in
  let config : option RunnableConfig :=
    Some {[ "configurable" := {[ "max_concurrent_agents" := VInt 7;
                                 "document_model" := VNone;
                                 "analysis_model" := VStr "m" ]} ]} in
  (exists inst,
     from_runnable_config validate environ config = inr inst
     /\ inst !! "max_concurrent_agents" = Some (VInt 4)
     /\ inst !! "analysis_model" = Some (VStr "m")
     /\ inst !! "document_model" = Some (VStr "google/gemini-2.5-flash")
     /\ inst !! "api_call_delay_seconds" = Some (VInt 120))
  /\ (exists inst,
       from_runnable_config validate ∅ config = inr inst
       /\ inst !! "max_concurrent_agents" = Some (VInt 7))
  /\ from_runnable_config validate {[ "MAX_CONCURRENT_AGENTS" := "many" ]} config
     = inl (Raised "ValidationError").
Proof.
  intros validate environ config. split; [|split].
  - destruct (mapM (construct_field validate (values environ (configurable_of config)))
                model_fields) as [fields|] eqn:M; [|vm_compute in M; discriminate M].
    destruct (from_runnable_config_built validate environ config fields M) as [E Hl].
    vm_compute in M. injection M as <-.
    eexists. split; [exact E|].
    repeat split; apply Hl; apply list_elem_of_In; simpl; auto 20.
  - destruct (mapM (construct_field validate (values ∅ (configurable_of config)))
                model_fields) as [fields|] eqn:M; [|vm_compute in M; discriminate M].
    destruct (from_runnable_config_built validate ∅ config fields M) as [E Hl].
    vm_compute in M. injection M as <-.
    eexists. split; [exact E|].
    apply Hl; apply list_elem_of_In; simpl; auto 20.
  - unfold from_runnable_config, Configuration_new.
    destruct (mapM _ model_fields) eqn:M; [vm_compute in M; discriminate M|].
    reflexivity.
Qed.

(** ** The two call paths *)

Lemma run_invoke who env input config w :
  run who env (invoke input config) w =
  if Qlt_le_dec (time_since_last_call w) (_delay_seconds (gate w)) then
    stamp_and_dispatch who env false input config
      (advance (sleep_time w + overshoot env) (waiting who false w))
  else stamp_and_dispatch who env false input config (entered who w).
Proof.
  unfold invoke, call, mbind, Prog_bind, mret, Prog_ret. simpl.
  unfold time_since_last_call, sleep_time. simpl.
  destruct (Qlt_le_dec (clock w - _last_call_time (gate w)) (_delay_seconds (gate w)))
    as [Hlt|Hge]; simpl.
  - destruct (Qlt_le_dec
                (_delay_seconds (gate w) - (clock w - _last_call_time (gate w))) 0)
      as [Hneg|Hpos]; [exfalso; lra|].
    unfold stamp_and_dispatch. simpl. destruct (outcome env); reflexivity.
  - unfold stamp_and_dispatch. simpl. destruct (outcome env); reflexivity.
Qed.

Lemma run_ainvoke who env input config w :
  run who env (ainvoke input config) w =
  if Qlt_le_dec (time_since_last_call w) (_delay_seconds (gate w)) then
    match cancelled_within env (sleep_time w + overshoot env) with
    | Some c => (record who Cancel (advance c (waiting who true w)), inl CancelledError)
    | None => stamp_and_dispatch who env true input config
                (advance (sleep_time w + overshoot env) (waiting who true w))
    end
  else stamp_and_dispatch who env true input config (entered who w).
Proof.
  unfold ainvoke, call, mbind, Prog_bind, mret, Prog_ret. simpl.
  unfold time_since_last_call, sleep_time. simpl.
  destruct (Qlt_le_dec (clock w - _last_call_time (gate w)) (_delay_seconds (gate w)))
    as [Hlt|Hge]; simpl.
  - destruct (Qlt_le_dec 0
                (_delay_seconds (gate w) - (clock w - _last_call_time (gate w))))
      as [Hpos|Hneg]; [|exfalso; lra].
    destruct (cancelled_within env _); [reflexivity|].
    unfold stamp_and_dispatch. simpl. destruct (outcome env); reflexivity.
  - unfold stamp_and_dispatch. simpl. destruct (outcome env); reflexivity.
Qed.

Lemma run_entry who env p input config w :
  run who env (entry p input config) w =
  if Qlt_le_dec (time_since_last_call w) (_delay_seconds (gate w)) then
    match (if is_suspending p
           then cancelled_within env (sleep_time w + overshoot env) else None) with
    | Some c => (record who Cancel (advance c (waiting who true w)), inl CancelledError)
    | None => stamp_and_dispatch who env (is_suspending p) input config
                (advance (sleep_time w + overshoot env) (waiting who (is_suspending p) w))
    end
  else stamp_and_dispatch who env (is_suspending p) input config (entered who w).
Proof.
  destruct p; simpl; [apply run_invoke | apply run_ainvoke].
Qed.

(** C4, as the code has it.  The stamp of a freshly constructed wrapper is
    [0.0], so its first call does not wait as long as the interval is at
    most the clock reading, in seconds since the epoch, at that call; the
    client is then called at once. *)
Theorem first_call_does_not_wait build environ d u kwargs self who env p input config t :
  DelayedLLM_init build environ d u kwargs = inr self ->
  (d <= t)%Q ->
  let w' := (run who env (entry p input config) (fresh_world t self)).1 in
  List.filter is_wait (history w') = []
  /\ dispatch_times (history w') = [t].
Proof.
  intros Hinit Hd. rewrite DelayedLLM_init_unfold in Hinit.
  destruct (build _ _) as [e|client]; [discriminate|].
  injection Hinit as <-. simpl.
  rewrite run_entry. unfold time_since_last_call, fresh_world. simpl.
  destruct (Qlt_le_dec (t - 0) d) as [Hlt|Hge]; [exfalso; lra|].
  unfold history, dispatch_times. simpl. split; reflexivity.
Qed.

Lemma first_call_does_not_wait_witness :
  DelayedLLM_init instantiate ∅ 120 true ∅
    = inr (mkDelayedLLM 120 0 true
             (mkClient ChatLiteLLM (openrouter_kwargs ∅ ∅)))
  /\ (120 <= 1793800000)%Q
  /\ List.filter is_wait
       (history (run 0 (mkCallEnv 0 None (1 # 2) (inr "ok")) (entry Blocking "hi" None)
                   (fresh_world 1793800000
                      (mkDelayedLLM 120 0 true
                         (mkClient ChatLiteLLM (openrouter_kwargs ∅ ∅))))).1) = []
  /\ dispatch_times
       (history (run 0 (mkCallEnv 0 None (1 # 2) (inr "ok")) (entry Blocking "hi" None)
                   (fresh_world 1793800000
                      (mkDelayedLLM 120 0 true
                         (mkClient ChatLiteLLM (openrouter_kwargs ∅ ∅))))).1)
     = [1793800000%Q].
Proof.
  assert (Hi : DelayedLLM_init instantiate ∅ 120 true ∅
               = inr (mkDelayedLLM 120 0 true
                        (mkClient ChatLiteLLM (openrouter_kwargs ∅ ∅))))
    by reflexivity.
  assert (Hd : (120 <= 1793800000)%Q) by (unfold Qle; simpl; lia).
  split; [exact Hi|]. split; [exact Hd|].
  exact (first_call_does_not_wait instantiate ∅ 120 true ∅ _ 0
           (mkCallEnv 0 None (1 # 2) (inr "ok")) Blocking "hi" None 1793800000 Hi Hd).
Defined.

(** C4, refuted as stated: with an interval longer than the clock reading
    the first call of a fresh wrapper does wait.  The clock reads
    1793800000 (a day of November 2026) and the interval is 2000000000
    seconds; the call waits 206200000 seconds before the client is called. *)
Lemma first_call_waits_when_interval_exceeds_clock :
  exists self,
    DelayedLLM_init instantiate ∅ 2000000000 true ∅ = inr self
    /\ (0 <= _delay_seconds self)%Q
    /\ map what
         (List.filter is_wait
            (history (run 0 (mkCallEnv 0 None (1 # 2) (inr "ok")) (invoke "hi" None)
                        (fresh_world 1793800000 self)).1))
       = [Wait false (2000000000 - (1793800000 - 0))]
    /\ (2000000000 - (1793800000 - 0) == 206200000)%Q.
Proof.
  eexists. split; [reflexivity|]. split; [simpl; unfold Qle; simpl; lia|].
  split; [|reflexivity].
  rewrite run_invoke. reflexivity.
Qed.

(** C6.  A call of [ainvoke] that has to wait and is cancelled before its
    wait is over raises [CancelledError] to its caller; the wrapper object,
    and with it the stored stamp, is as it was, and neither a stamp nor a
    call of the client has been added to the events. *)
Theorem cancelled_wait_leaves_the_stamp who env input config w c :
  (time_since_last_call w < _delay_seconds (gate w))%Q ->
  cancel_after env = Some c ->
  (c < sleep_time w + overshoot env)%Q ->
  let w' := (run who env (ainvoke input config) w).1 in
  (run who env (ainvoke input config) w).2 = inl CancelledError
  /\ gate w' = gate w
  /\ _last_call_time (gate w') = _last_call_time (gate w)
  /\ List.filter is_dispatch (log w') = List.filter is_dispatch (log w)
  /\ List.filter is_stamp (log w') = List.filter is_stamp (log w).
Proof.
  intros Hwait Hc Hlt w'. subst w'. rewrite run_ainvoke.
  destruct (Qlt_le_dec (time_since_last_call w) (_delay_seconds (gate w)))
    as [_|Hge]; [|exfalso; lra].
  unfold cancelled_within. rewrite Hc.
  destruct (Qlt_le_dec c (sleep_time w + overshoot env)) as [_|Hge]; [|exfalso; lra].
  simpl. repeat split; reflexivity.
Qed.

Lemma cancelled_wait_leaves_the_stamp_witness :
  let w := mkWorld 100 (mkDelayedLLM 2 99 true (mkClient ChatLiteLLM ∅)) [] in
  let env := mkCallEnv 0 (Some (1 # 2)) (1 # 10) (inr "ok") in
  (run 0 env (ainvoke "hi" None) w).2 = inl CancelledError
  /\ gate (run 0 env (ainvoke "hi" None) w).1 = gate w
  /\ _last_call_time (gate (run 0 env (ainvoke "hi" None) w).1) = 99%Q
  /\ List.filter is_dispatch (log (run 0 env (ainvoke "hi" None) w).1) = []
  /\ List.filter is_stamp (log (run 0 env (ainvoke "hi" None) w).1) = [].
Proof.
  intros w env.
  apply (cancelled_wait_leaves_the_stamp 0 env "hi" None w (1 # 2)).
  - unfold time_since_last_call, Qlt; simpl; lia.
  - reflexivity.
  - unfold sleep_time, time_since_last_call, Qlt; simpl; lia.
Defined.

(** C3, as the code has it.  A call that is not cancelled in its wait
    writes the stamp exactly once: to the clock reading taken after the
    wait, at the instant the client's call begins and before it.  The
    stamp is not written again when the client's call ends, whether that
    call returns or raises. *)
Theorem stamp_is_written_before_the_client_call who env p input config w :
  let w' := (run who env (entry p input config) w).1 in
  let r := (run who env (entry p input config) w).2 in
  (r = inl CancelledError /\ gate w' = gate w
   /\ List.filter is_stamp (log w') = List.filter is_stamp (log w))
  \/ exists t before,
       log w' = mkEvent who (t + duration env) (Complete (outcome env))
                :: mkEvent who t (Dispatch (is_suspending p) input config)
                :: mkEvent who t (Stamp t)
                :: (before ++ log w)%list
       /\ List.filter is_stamp before = []
       /\ List.filter is_dispatch before = []
       /\ _last_call_time (gate w') = t
       /\ r = outcome env.
Proof.
  intros w' r. subst w' r. rewrite run_entry.
  destruct (Qlt_le_dec (time_since_last_call w) (_delay_seconds (gate w))) as [Hlt|Hge].
  - destruct (if is_suspending p then _ else None) as [c|].
    + left. simpl. repeat split; reflexivity.
    + right. eexists. eexists [_; _; _]. simpl. repeat split; reflexivity.
  - right. eexists. eexists [_]. simpl. repeat split; reflexivity.
Qed.

(** C3, refuted as stated: the stamp is not written after the client's call
    has ended.  A call at clock 100 whose client takes a tenth of a second
    stamps 100 and then calls the client; when the client has returned, or
    raised, at 100.1 the stored stamp is still 100. *)
Lemma stamp_is_not_written_after_completion :
  let w := mkWorld 100 (mkDelayedLLM 2 0 true (mkClient ChatLiteLLM ∅)) [] in
  let returns := mkCallEnv 0 None (1 # 10) (inr "ok") in
  let raises := mkCallEnv 0 None (1 # 10) (inl (Raised "APIError")) in
  map what (history (run 0 returns (invoke "hi" None) w).1)
    = [ReadStamp 0; Stamp 100; Dispatch false "hi" None; Complete (inr "ok")]
  /\ stamps_follow_completions [] (history (run 0 returns (invoke "hi" None) w).1) = false
  /\ stamps_follow_completions [] (history (run 0 returns (ainvoke "hi" None) w).1) = false
  /\ stamps_follow_completions [] (history (run 0 raises (invoke "hi" None) w).1) = false
  /\ (clock (run 0 returns (invoke "hi" None) w).1 == 1001 # 10)%Q
  /\ _last_call_time (gate (run 0 returns (invoke "hi" None) w).1) = 100%Q
  /\ (run 0 raises (invoke "hi" None) w).2 = inl (Raised "APIError")
  /\ _last_call_time (gate (run 0 raises (invoke "hi" None) w).1) = 100%Q.
Proof.
  vm_compute. repeat split; reflexivity.
Qed.

(** C9.  On the same world and with the same waits and client, [ainvoke]
    does what [invoke] does: it reads the same stamp, waits for the same
    duration, writes the same stamp and returns the same result, and the
    clock and the wrapper are the same afterwards.  The events differ only
    in that the wait and the client's call are the suspending ones (and the
    printed line says so). *)
Theorem ainvoke_follows_invoke who env input config w :
  cancel_after env = None ->
  let b := run who env (invoke input config) w in
  let s := run who env (ainvoke input config) w in
  s.2 = b.2
  /\ clock s.1 = clock b.1
  /\ gate s.1 = gate b.1
  /\ exists evs, log b.1 = (evs ++ log w)%list
                 /\ log s.1 = (map as_suspending evs ++ log w)%list.
Proof.
  intros Hc b s. subst b s. rewrite run_invoke, run_ainvoke.
  unfold cancelled_within. rewrite Hc.
  destruct (Qlt_le_dec (time_since_last_call w) (_delay_seconds (gate w))) as [Hlt|Hge];
    simpl; repeat split; try reflexivity.
  - eexists [_; _; _; _; _; _]. simpl. split; reflexivity.
  - eexists [_; _; _; _]. simpl. split; reflexivity.
Qed.

Lemma ainvoke_follows_invoke_witness :
  let w := mkWorld 100 (mkDelayedLLM 2 99 false (mkClient ChatGoogleGenerativeAI ∅)) [] in
  let env := mkCallEnv (1 # 100) None (1 # 10) (inr "ok") in
  (run 0 env (ainvoke "hi" None) w).2 = (run 0 env (invoke "hi" None) w).2
  /\ clock (run 0 env (ainvoke "hi" None) w).1 = clock (run 0 env (invoke "hi" None) w).1
  /\ gate (run 0 env (ainvoke "hi" None) w).1 = gate (run 0 env (invoke "hi" None) w).1
  /\ exists evs, log (run 0 env (invoke "hi" None) w).1 = (evs ++ log w)%list
                 /\ log (run 0 env (ainvoke "hi" None) w).1
                    = (map as_suspending evs ++ log w)%list.
Proof.
  intros w env.
  apply (ainvoke_follows_invoke 0 env "hi" None w). reflexivity.
Defined.

(** ** Calls issued one after the other *)

Lemma spaced_snoc d l b a :
  spaced d (l ++ [b]) -> (b + d <= a)%Q -> spaced d ((l ++ [b]) ++ [a]).
Proof.
  induction l as [|x l IH]; intros Hs Hab.
  - simpl. split; [exact Hab | exact I].
  - destruct l as [|y l].
    + simpl in *. destruct Hs as [Hxb _]. repeat split; assumption.
    + change (spaced d (x :: (y :: (l ++ [b]) ++ [a]))).
      change (spaced d (x :: y :: l ++ [b])) in Hs.
      destruct Hs as [Hxy Hs]. split; [exact Hxy|].
      apply IH; assumption.
Qed.

Lemma spaced_down_rev d l : spaced_down d l -> spaced d (rev l).
Proof.
  induction l as [|a l IH]; intros Hs; [exact I|].
  destruct l as [|b l]; [exact I|].
  destruct Hs as [Hba Hs]. specialize (IH Hs).
  change (rev (a :: b :: l)) with ((rev l ++ [b]) ++ [a]).
  apply spaced_snoc; [exact IH | exact Hba].
Qed.

Lemma dispatch_times_history w :
  dispatch_times (history w) = rev (map at_ (List.filter is_dispatch (log w))).
Proof.
  unfold dispatch_times, history. rewrite filter_rev, map_rev. reflexivity.
Qed.

Lemma run_entry_settled d who env p input config w :
  (0 <= overshoot env)%Q ->
  settled d w ->
  settled d (run who env (entry p input config) w).1.
Proof.
  intros Hov (Hd & Hsp & Hlast). rewrite run_entry.
  destruct (Qlt_le_dec (time_since_last_call w) (_delay_seconds (gate w))) as [Hlt|Hge].
  - destruct (if is_suspending p then _ else None) as [c|].
    + unfold settled, waiting, entered, record, advance. simpl.
      repeat split; assumption.
    + unfold settled, stamp_and_dispatch, waiting, entered, record, advance,
        store_last_call_time. simpl.
      split; [exact Hd|]. split; [|reflexivity].
      destruct (List.filter is_dispatch (log w)) as [|ev rest]; [exact I|].
      split; [|exact Hsp].
      simpl. rewrite Hlast, <- Hd. unfold sleep_time, time_since_last_call. lra.
  - unfold settled, stamp_and_dispatch, entered, record, advance,
      store_last_call_time. simpl.
    split; [exact Hd|]. split; [|reflexivity].
    destruct (List.filter is_dispatch (log w)) as [|ev rest]; [exact I|].
    split; [|exact Hsp].
    simpl. rewrite Hlast, <- Hd. unfold time_since_last_call in Hge. lra.
Qed.

Lemma run_calls_settled d cs : forall who w,
  Forall (fun c => (0 <= overshoot (call_env c))%Q) cs ->
  settled d w ->
  settled d (run_calls who cs w).
Proof.
  induction cs as [|c cs IH]; intros who w Hov Hw; [exact Hw|].
  inversion Hov as [|? ? Hc Hcs]; subst. simpl.
  apply IH; [exact Hcs|].
  unfold issue. apply run_entry_settled; [exact Hc|]. exact Hw.
Qed.

(** C1, as the code has it.  For calls issued one after the other through
    one wrapper with interval [d], each wait lasting at least as long as
    asked, the instant the client's call begins is at least [d] after the
    instant the previous client call began: the interval is measured from
    the start of the previous dispatch, where the stamp is written. *)
Theorem sequential_dispatches_are_spaced who cs t self :
  Forall (fun c => (0 <= overshoot (call_env c))%Q) cs ->
  spaced (_delay_seconds self)
         (dispatch_times (history (run_calls who cs (fresh_world t self)))).
Proof.
  intros Hov. rewrite dispatch_times_history. apply spaced_down_rev.
  apply (run_calls_settled (_delay_seconds self) cs who (fresh_world t self) Hov).
  repeat split.
Qed.

Lemma sequential_dispatches_are_spaced_witness :
  let self := mkDelayedLLM 2 0 true (mkClient ChatLiteLLM ∅) in
  let cs := [ mkCall 100 Blocking "a" None (mkCallEnv 0 None (1 # 10) (inr "ra"));
              mkCall (201 # 2) Suspending "b" None
                (mkCallEnv (1 # 100) None (1 # 10) (inl (Raised "APIError")));
              mkCall 101 Blocking "c" None (mkCallEnv 0 None 3 (inr "rc")) ] in
  Forall (fun c => (0 <= overshoot (call_env c))%Q) cs
  /\ spaced (_delay_seconds self)
            (dispatch_times (history (run_calls 0 cs (fresh_world 0 self)))).
Proof.
  intros self cs.
  assert (H : Forall (fun c => (0 <= overshoot (call_env c))%Q) cs).
  { subst cs. repeat constructor; unfold Qle; simpl; lia. }
  split; [exact H|].
  exact (sequential_dispatches_are_spaced 0 cs 0 self H).
Defined.

(** C1, refuted as stated: the interval is not measured from the end of the
    previous client call.  Interval 2 s, call A takes 0.1 s, call B is
    issued 0.5 s after A.  On a wrapper in use at clock 100, A is dispatched
    at 100 and returns at 100.1, and B is dispatched at 102, which is
    before 100.1 + 2.  With the clock at 0 on a fresh wrapper, A itself
    waits and is dispatched at 2, returns at 2.1, and B is dispatched at 4,
    before 2.1 + 2.  In both runs B follows the end of A by 1.9 s. *)
Lemma second_call_is_dispatched_before_completion_plus_interval :
  exists self,
    DelayedLLM_init instantiate ∅ 2 true ∅ = inr self
    /\ (let A := mkCall 100 Blocking "a" None (mkCallEnv 0 None (1 # 10) (inr "ra")) in
        let B := mkCall (201 # 2) Blocking "b" None (mkCallEnv 0 None (1 # 10) (inr "rb")) in
        let w := run_calls 0 [A; B] (fresh_world 100 self) in
        Forall2 Qeq (dispatch_times (history w)) [100; 102]%Q
        /\ Forall2 Qeq (completion_times (history w)) [1001 # 10; 1021 # 10]%Q
        /\ ~ spaced_from_ends 2 (completion_times (history w))
                                (tl (dispatch_times (history w))))
    /\ (let A := mkCall 0 Blocking "a" None (mkCallEnv 0 None (1 # 10) (inr "ra")) in
        let B := mkCall (1 # 2) Blocking "b" None (mkCallEnv 0 None (1 # 10) (inr "rb")) in
        let w := run_calls 0 [A; B] (fresh_world 0 self) in
        Forall2 Qeq (dispatch_times (history w)) [2; 4]%Q
        /\ Forall2 Qeq (completion_times (history w)) [21 # 10; 41 # 10]%Q
        /\ ~ spaced_from_ends 2 (completion_times (history w))
                                (tl (dispatch_times (history w)))).
Proof.
  eexists. split; [reflexivity|].
  split; vm_compute; (split; [repeat constructor|]);
    (split; [repeat constructor|]); intros [H _]; apply H; reflexivity.
Qed.

(** ** Coroutines that share one event loop *)

(** C2, refuted as stated: concurrent callers are dispatched together.
    Interval 2 s.  Three coroutines call [ainvoke] at clock 100 on a fresh
    wrapper: the first is dispatched at 100; the other two both read the
    stamp 100, both wait 2 s, and are both dispatched at 102.  Two
    coroutines that call [ainvoke] at 100.5 on a wrapper whose last
    dispatch was at 100 both read the stamp 100, both wait 1.5 s, and are
    both dispatched at 102. *)
Lemma concurrent_callers_are_dispatched_together :
  exists self,
    DelayedLLM_init instantiate ∅ 2 true ∅ = inr self
    /\ (0 < _delay_seconds self)%Q
    /\ (let caller_at t := mkCall t Suspending "q" None
                             (mkCallEnv 0 None (1 # 10) (inr "r")) in
        let s := run_gather 0 [caller_at 100%Q; caller_at 100%Q; caller_at 100%Q]
                   (fresh_world 100 self) in
        parked_tasks s = []
        /\ Forall2 Qeq (dispatch_times (history (world s))) [100; 102; 102]%Q
        /\ ~ spaced 2 (dispatch_times (history (world s))))
    /\ (let caller_at t := mkCall t Suspending "q" None
                             (mkCallEnv 0 None (1 # 10) (inr "r")) in
        let used := run_calls 0 [caller_at 100%Q] (fresh_world 100 self) in
        let s := run_gather 1 [caller_at (201 # 2)%Q; caller_at (201 # 2)%Q] used in
        parked_tasks s = []
        /\ Forall2 Qeq (dispatch_times (history (world s))) [100; 102; 102]%Q
        /\ ~ spaced 2 (dispatch_times (history (world s)))).
Proof.
  eexists. split; [reflexivity|]. split; [reflexivity|].
  split; vm_compute; (split; [reflexivity|]); (split; [repeat constructor|]);
    intros (_ & H & _); apply H; reflexivity.
Qed.

Lemma run_until_await_tail who env input config w :
  run_until_await who env (ainvoke_tail input config) w
  = dispatch_now who env input config w.
Proof. reflexivity. Qed.

Lemma run_until_await_ainvoke who env input config w :
  run_until_await who env (ainvoke input config) w =
  if Qlt_le_dec (time_since_last_call w) (_delay_seconds (gate w)) then
    (waiting who true w,
     match cancelled_within env (sleep_time w + overshoot env) with
     | Some c => Parks (clock w + c) (Throw CancelledError)
     | None => Parks (clock w + (sleep_time w + overshoot env))
                     (Resume (ainvoke_tail input config))
     end)
  else dispatch_now who env input config (entered who w).
Proof.
  unfold ainvoke, call, mbind, Prog_bind, mret, Prog_ret. simpl.
  unfold time_since_last_call, sleep_time. simpl.
  destruct (Qlt_le_dec (clock w - _last_call_time (gate w)) (_delay_seconds (gate w)))
    as [Hlt|Hge]; simpl; [|reflexivity].
  destruct (Qlt_le_dec 0
              (_delay_seconds (gate w) - (clock w - _last_call_time (gate w))))
    as [Hpos|Hneg]; [|exfalso; lra].
  unfold waiting, entered, sleep_time, time_since_last_call. simpl.
  destruct (cancelled_within env _); reflexivity.
Qed.

Lemma pick_Forall (P : Coroutine -> Prop) cs : forall c rest,
  pick cs = Some (c, rest) -> Forall P cs -> P c /\ Forall P rest.
Proof.
  induction cs as [|x cs IH]; intros c rest Hp HF; [discriminate|].
  simpl in Hp. inversion HF as [|? ? Hx Hcs]; subst.
  destruct (pick cs) as [[m others]|] eqn:E.
  - destruct (Qlt_le_dec (wake m) (wake x)); inversion Hp; subst.
    + destruct (IH c others eq_refl Hcs) as [Hm Ho].
      split; [exact Hm|]. constructor; assumption.
    + split; assumption.
  - inversion Hp; subst. split; [exact Hx | constructor].
Qed.

Lemma covered_cons d who t evs e :
  covered d who t evs -> covered d who t (e :: evs).
Proof.
  intros (mid & r & older & L & -> & H).
  exists (e :: mid), r, older, L. split; [reflexivity | exact H].
Qed.

Lemma covered_later d who t t' evs :
  covered d who t evs -> (t <= t')%Q -> covered d who t' evs.
Proof.
  intros (mid & r & older & L & Heq & Hc & Hw & Hle & Hold) Ht.
  exists mid, r, older, L. repeat split; try assumption. lra.
Qed.


Lemma dispatches_covered_cons d e evs :
  dispatches_covered d evs ->
  (is_dispatch e = true -> covered d (caller e) (at_ e) evs) ->
  dispatches_covered d (e :: evs).
Proof.
  intros H He newer e2 before Heq Hd.
  destruct newer as [|x newer]; simpl in Heq; inversion Heq; subst.
  - apply He. exact Hd.
  - apply (H newer e2 before eq_refl Hd).
Qed.

Lemma parked_ok_cons d evs e co :
  parked_ok d evs co -> parked_ok d (e :: evs) co.
Proof.
  intros [Hov H]. split; [exact Hov|].
  destruct (parked co); try exact H.
  destruct H as [H|[H Hc]]; [left; exact H|].
  right. split; [exact H|]. apply covered_cons. exact Hc.
Qed.

Lemma Forall_parked_ok_cons d evs e cs :
  Forall (parked_ok d evs) cs -> Forall (parked_ok d (e :: evs)) cs.
Proof.
  intros H. eapply Forall_impl; [exact H|]. intros co. apply parked_ok_cons.
Qed.

Lemma Forall_older_stamp (L L' : Q) evs :
  (L <= L')%Q ->
  Forall (fun e => is_dispatch e = true -> (at_ e <= L)%Q) evs ->
  Forall (fun e => is_dispatch e = true -> (at_ e <= L')%Q) evs.
Proof.
  intros HL H. eapply Forall_impl; [exact H|].
  intros e He Hd. specialize (He Hd). lra.
Qed.

Lemma arrive_facts t w :
  gate (arrive t w) = gate w
  /\ log (arrive t w) = log w
  /\ (clock w <= clock (arrive t w))%Q
  /\ (t <= clock (arrive t w))%Q.
Proof.
  unfold arrive. simpl. repeat split; destruct (Qlt_le_dec (clock w) t); lra.
Qed.

(** An event that is no dispatch leaves nothing to prove about it. *)
Ltac quiet_stamp := constructor; [intros Hq; discriminate Hq|].
Ltac quiet_cover := apply dispatches_covered_cons; [|intros Hq; discriminate Hq].

(** One turn of the loop keeps what holds of it. *)
Lemma loop_step_inv d s : loop_inv d s -> loop_inv d (loop_step s).
Proof.
  intros Hinv. unfold loop_step.
  destruct (pick (parked_tasks s)) as [[co others]|] eqn:Hpick; [|exact Hinv].
  destruct Hinv as [Hd Hc Hst Hlog Hpk].
  destruct (pick_Forall _ _ _ _ Hpick Hpk) as [[Hov Hco] Hothers].
  destruct (arrive_facts (wake co) (world s)) as (Hg & Hl & Hck & Hwk).
  remember (arrive (wake co) (world s)) as w1 eqn:Ew1. clear Ew1.
  unfold resume. destruct (parked co) as [p|k|e] eqn:Hp.
  - destruct Hco as [(input & config & ->)|[(input & config & ->) Hcov]].
    + rewrite run_until_await_ainvoke.
      destruct (Qlt_le_dec (time_since_last_call w1) (_delay_seconds (gate w1)))
        as [Hlt|Hge].
      * assert (Hnew : loop_inv d
                  (mkLoop (waiting (co_id co) true w1) others (finished s))).
        { unfold waiting, entered, record. constructor; simpl;
            rewrite ?Hg, ?Hl.
          - exact Hd.
          - lra.
          - repeat quiet_stamp. exact Hst.
          - repeat quiet_cover.
            exact Hlog.
          - repeat apply Forall_parked_ok_cons. exact Hothers. }
        destruct Hnew as [Hd' Hc' Hst' Hlog' Hpk'].
        destruct (cancelled_within (co_env co) _) as [c|];
          constructor; simpl in *; try assumption;
          apply Forall_app; (split; [exact Hpk'|]);
          constructor; [|constructor| |constructor].
        -- split; [exact Hov | exact I].
        -- split; [exact Hov|]. simpl. right. split; [eauto|].
           unfold waiting, entered, record. simpl. rewrite Hg, Hl.
           eexists [_; _], _, _, _.
           split; [reflexivity|]. split; [reflexivity|]. split; [reflexivity|].
           split; [|exact Hst].
           unfold sleep_time, time_since_last_call. rewrite Hg, Hd. lra.
      * unfold dispatch_now, entered, record, store_last_call_time. simpl.
        rewrite Hg, Hl. unfold time_since_last_call in Hge. rewrite Hg, Hd in Hge.
        assert (Hcov : covered d (co_id co) (clock w1)
                  (mkEvent (co_id co) (clock w1) (Stamp (clock w1))
                   :: mkEvent (co_id co) (clock w1)
                        (ReadStamp (_last_call_time (gate (world s))))
                   :: log (world s))).
        { eexists [_], _, _, _.
          split; [reflexivity|]. split; [reflexivity|]. split; [reflexivity|].
          split; [lra | exact Hst]. }
        constructor; simpl.
        -- exact Hd.
        -- lra.
        -- constructor; [intros _; simpl; lra|].
           repeat quiet_stamp.
           apply (Forall_older_stamp (_last_call_time (gate (world s)))); [lra | exact Hst].
        -- apply dispatches_covered_cons; [|intros _; exact Hcov].
           repeat quiet_cover.
           exact Hlog.
        -- apply Forall_app. split.
           ++ repeat apply Forall_parked_ok_cons. exact Hothers.
           ++ constructor; [|constructor]. split; [exact Hov|]. simpl. reflexivity.
    + rewrite run_until_await_tail.
      unfold dispatch_now, record, store_last_call_time. simpl.
      rewrite Hg, Hl.
      assert (Hcov' : covered d (co_id co) (clock w1)
                (mkEvent (co_id co) (clock w1) (Stamp (clock w1)) :: log (world s))).
      { apply covered_cons. apply (covered_later d _ (wake co)); assumption. }
      constructor; simpl.
      * exact Hd.
      * lra.
      * constructor; [intros _; simpl; lra|].
        quiet_stamp.
        apply (Forall_older_stamp (_last_call_time (gate (world s)))); [lra | exact Hst].
      * apply dispatches_covered_cons; [|intros _; exact Hcov'].
        quiet_cover. exact Hlog.
      * apply Forall_app. split.
        -- repeat apply Forall_parked_ok_cons. exact Hothers.
        -- constructor; [|constructor]. split; [exact Hov|]. simpl. reflexivity.
  - assert (Hnew : loop_inv d
              (mkLoop (record (co_id co) (Complete (outcome (co_env co))) w1)
                      others (finished s ++ [(co_id co, outcome (co_env co))]))).
    { unfold record. constructor; simpl; rewrite ?Hg, ?Hl.
      - exact Hd.
      - lra.
      - quiet_stamp. exact Hst.
      - quiet_cover. exact Hlog.
      - apply Forall_parked_ok_cons. exact Hothers. }
    destruct (outcome (co_env co)) as [exn|r]; [exact Hnew|].
    rewrite Hco. simpl. exact Hnew.
  - unfold record. constructor; simpl; rewrite ?Hg, ?Hl.
    + exact Hd.
    + lra.
    + quiet_stamp. exact Hst.
    + quiet_cover. exact Hlog.
    + apply Forall_parked_ok_cons. exact Hothers.
Qed.

Lemma loop_steps_inv d n : forall s, loop_inv d s -> loop_inv d (loop_steps n s).
Proof.
  induction n as [|n IH]; intros s Hs; [exact Hs|].
  simpl. apply IH. apply loop_step_inv. exact Hs.
Qed.

Lemma spawn_parked_ok d cs : forall who,
  Forall (fun c => path c = Suspending /\ (0 <= overshoot (call_env c))%Q) cs ->
  Forall (parked_ok d []) (spawn who cs).
Proof.
  induction cs as [|c cs IH]; intros who Hcs; [constructor|].
  inversion Hcs as [|? ? [Hpath Hov] Hrest]; subst. simpl.
  constructor; [|apply IH; exact Hrest].
  split; [exact Hov|]. simpl. rewrite Hpath. left. eauto.
Qed.

Lemma gather_inv who cs w :
  Forall (fun c => path c = Suspending /\ (0 <= overshoot (call_env c))%Q) cs ->
  log w = [] ->
  (_last_call_time (gate w) <= clock w)%Q ->
  loop_inv (_delay_seconds (gate w)) (gather who cs w).
Proof.
  intros Hcs Hlog Hclock. constructor; simpl.
  - reflexivity.
  - exact Hclock.
  - rewrite Hlog. constructor.
  - rewrite Hlog. intros newer e2 before Heq. destruct newer; discriminate Heq.
  - rewrite Hlog. apply spawn_parked_ok. exact Hcs.
Qed.

(** C2, as the code has it.  Coroutines that call [ainvoke] on one wrapper
    share its stamp without any exclusion.  Whatever the number of turns
    the loop has taken, every dispatch in the log comes after a read of the
    stamp by the same caller, at least [d] after the stamp [L] that was
    read, and so at least [d] after every dispatch that is older than that
    read.  Nothing is promised about two callers that both read the stamp
    before either is dispatched. *)
Theorem concurrent_dispatch_follows_the_stamp_read who cs w n k e2 :
  Forall (fun c => path c = Suspending /\ (0 <= overshoot (call_env c))%Q) cs ->
  log w = [] ->
  (_last_call_time (gate w) <= clock w)%Q ->
  log (world (loop_steps n (gather who cs w))) !! k = Some e2 ->
  is_dispatch e2 = true ->
  exists mid r older L,
    drop (S k) (log (world (loop_steps n (gather who cs w)))) = mid ++ r :: older
    /\ caller r = caller e2
    /\ what r = ReadStamp L
    /\ (L + _delay_seconds (gate w) <= at_ e2)%Q
    /\ forall e1, In e1 older -> is_dispatch e1 = true ->
         (at_ e1 + _delay_seconds (gate w) <= at_ e2)%Q.
Proof.
  intros Hcs Hlog Hclock Hk He2.
  pose proof (loop_steps_inv _ n _ (gather_inv who cs w Hcs Hlog Hclock)) as Hinv.
  destruct Hinv as [_ _ _ Hcov _].
  pose proof (take_drop_middle _ _ _ Hk) as Hsplit.
  destruct (Hcov _ _ _ (eq_sym Hsplit) He2)
    as (mid & r & older & L & Heq & Hcaller & Hwhat & HL & Hold).
  exists mid, r, older, L. repeat split; try assumption.
  intros e1 Hin Hd1.
  rewrite List.Forall_forall in Hold. specialize (Hold e1 Hin Hd1). lra.
Qed.

Lemma concurrent_dispatch_follows_the_stamp_read_witness :
  let self := mkDelayedLLM 2 0 true (mkClient ChatLiteLLM ∅) in
  let caller_at t := mkCall t Suspending "q" None (mkCallEnv 0 None (1 # 10) (inr "r")) in
  let cs := [caller_at 100%Q; caller_at 100%Q; caller_at 100%Q] in
  let w := fresh_world 100 self in
  exists e2,
    log (world (loop_steps 9 (gather 0 cs w))) !! 2%nat = Some e2
    /\ is_dispatch e2 = true
    /\ exists mid r older L,
         drop 3 (log (world (loop_steps 9 (gather 0 cs w)))) = mid ++ r :: older
         /\ caller r = caller e2
         /\ what r = ReadStamp L
         /\ (L + _delay_seconds (gate w) <= at_ e2)%Q
         /\ forall e1, In e1 older -> is_dispatch e1 = true ->
              (at_ e1 + _delay_seconds (gate w) <= at_ e2)%Q.
Proof.
  intros self caller_at cs w.
  assert (Hcs : Forall (fun c => path c = Suspending
                                 /\ (0 <= overshoot (call_env c))%Q) cs).
  { subst cs caller_at. repeat constructor; unfold Qle; simpl; lia. }
  assert (Hclock : (_last_call_time (gate w) <= clock w)%Q).
  { unfold Qle; simpl; lia. }
  eexists. split; [vm_compute; reflexivity|]. split; [reflexivity|].
  apply (concurrent_dispatch_follows_the_stamp_read 0 cs w 9 2 _ Hcs eq_refl Hclock).
  - vm_compute. reflexivity.
  - reflexivity.
Defined.

(** * Further properties *)

(** ** The wait of one call *)

(** X1.  A call that has to wait asks for exactly the rest of the interval,
    [_delay_seconds - (now - _last_call_time)]: a positive duration, so
    [time.sleep] is never given a negative one, and at most the whole
    interval when the stamp is not ahead of the clock.  Unless it is
    cancelled in that wait, the call is dispatched [_delay_seconds] plus
    the overshoot of the wait after the stamp it read. *)
Theorem wait_is_the_rest_of_the_interval who env p input config w :
  (time_since_last_call w < _delay_seconds (gate w))%Q ->
  let w' := (run who env (entry p input config) w).1 in
  map what (List.filter is_wait (log w'))
    = Wait (is_suspending p) (sleep_time w) :: map what (List.filter is_wait (log w))
  /\ (0 < sleep_time w)%Q
  /\ ((_last_call_time (gate w) <= clock w)%Q ->
      (sleep_time w <= _delay_seconds (gate w))%Q)
  /\ ((if is_suspending p
       then cancelled_within env (sleep_time w + overshoot env) else None) = None ->
      exists t,
        map at_ (List.filter is_dispatch (log w'))
          = t :: map at_ (List.filter is_dispatch (log w))
        /\ (t == _last_call_time (gate w) + _delay_seconds (gate w) + overshoot env)%Q).
Proof.
  intros Hlt w'. subst w'. rewrite run_entry.
  destruct (Qlt_le_dec (time_since_last_call w) (_delay_seconds (gate w)))
    as [_|Hge]; [|exfalso; lra].
  assert (Hpos : (0 < sleep_time w)%Q) by (unfold sleep_time; lra).
  destruct (if is_suspending p then _ else None) as [c|] eqn:Ec.
  - simpl. split; [|split; [exact Hpos|split]].
    + destruct p; [discriminate Ec | reflexivity].
    + unfold sleep_time, time_since_last_call. intros; lra.
    + intros Hn. discriminate Hn.
  - simpl. split; [reflexivity|]. split; [exact Hpos|]. split.
    + unfold sleep_time, time_since_last_call. intros; lra.
    + intros _. eexists. split; [reflexivity|].
      unfold sleep_time, time_since_last_call. simpl. ring.
Qed.

Lemma wait_is_the_rest_of_the_interval_witness :
  let w := mkWorld 100 (mkDelayedLLM 2 99 true (mkClient ChatLiteLLM ∅)) [] in
  let env := mkCallEnv (1 # 4) None (1 # 10) (inr "ok") in
  (time_since_last_call w < _delay_seconds (gate w))%Q
  /\ map what (List.filter is_wait (log (run 0 env (entry Blocking "hi" None) w).1))
     = Wait false (sleep_time w) :: map what (List.filter is_wait (log w))
  /\ (0 < sleep_time w)%Q
  /\ ((_last_call_time (gate w) <= clock w)%Q ->
      (sleep_time w <= _delay_seconds (gate w))%Q)
  /\ (@None Q = None ->
      exists t,
        map at_ (List.filter is_dispatch (log (run 0 env (entry Blocking "hi" None) w).1))
          = t :: map at_ (List.filter is_dispatch (log w))
        /\ (t == _last_call_time (gate w) + _delay_seconds (gate w) + overshoot env)%Q).
Proof.
  intros w env.
  assert (H : (time_since_last_call w < _delay_seconds (gate w))%Q).
  { unfold time_since_last_call, Qlt; simpl; lia. }
  split; [exact H|].
  exact (wait_is_the_rest_of_the_interval 0 env Blocking "hi" None w H).
Defined.

(** ** Calls issued one after the other *)

Lemma run_entry_never_due who env p input config w :
  (0 <= duration env)%Q ->
  never_due w ->
  never_due (run who env (entry p input config) w).1
  /\ List.filter is_wait (log (run who env (entry p input config) w).1)
     = List.filter is_wait (log w).
Proof.
  intros Hdur [Hd Hlast]. rewrite run_entry.
  destruct (Qlt_le_dec (time_since_last_call w) (_delay_seconds (gate w))) as [Hlt|Hge].
  - exfalso. unfold time_since_last_call in Hlt. lra.
  - unfold never_due, stamp_and_dispatch, entered, record, advance,
      store_last_call_time. simpl.
    split; [split; [exact Hd | lra] | reflexivity].
Qed.

Lemma arrive_never_due t w : never_due w -> never_due (arrive t w).
Proof.
  intros [Hd Hlast]. destruct (arrive_facts t w) as (Hg & _ & Hck & _).
  unfold never_due. rewrite Hg. split; [exact Hd | lra].
Qed.

Lemma run_calls_never_due cs : forall who w,
  Forall (fun c => (0 <= duration (call_env c))%Q) cs ->
  never_due w ->
  List.filter is_wait (log (run_calls who cs w)) = List.filter is_wait (log w).
Proof.
  induction cs as [|c cs IH]; intros who w Hcs Hw; [reflexivity|].
  inversion Hcs as [|? ? Hc Hrest]; subst. simpl.
  unfold issue.
  destruct (run_entry_never_due who (call_env c) (path c) (call_input c) (call_config c)
              (arrive (issued_at c) w) Hc (arrive_never_due _ _ Hw)) as [Hn Hf].
  rewrite (IH _ _ Hrest Hn). exact Hf.
Qed.

(** X2.  With an interval of zero (or less) no call ever waits: for calls
    issued one after the other, on either path, to a wrapper whose stamp is
    not ahead of the clock and whose client takes no negative time, no wait
    is added to the events. *)
Theorem zero_interval_never_waits who cs w :
  (_delay_seconds (gate w) <= 0)%Q ->
  (_last_call_time (gate w) <= clock w)%Q ->
  Forall (fun c => (0 <= duration (call_env c))%Q) cs ->
  List.filter is_wait (log (run_calls who cs w)) = List.filter is_wait (log w).
Proof.
  intros Hd Hlast Hcs. apply run_calls_never_due; [exact Hcs|].
  split; assumption.
Qed.

Lemma zero_interval_never_waits_witness :
  let w := fresh_world 100 (mkDelayedLLM 0 0 true (mkClient ChatLiteLLM ∅)) in
  let cs := [ mkCall 100 Blocking "a" None (mkCallEnv 0 None (1 # 10) (inr "ra"));
              mkCall 100 Suspending "b" None (mkCallEnv 0 None 0 (inr "rb"));
              mkCall 100 Blocking "c" None (mkCallEnv 0 None 3 (inl (Raised "APIError"))) ] in
  (_delay_seconds (gate w) <= 0)%Q
  /\ (_last_call_time (gate w) <= clock w)%Q
  /\ Forall (fun c => (0 <= duration (call_env c))%Q) cs
  /\ List.filter is_wait (log (run_calls 0 cs w)) = List.filter is_wait (log w).
Proof.
  intros w cs.
  assert (Hd : (_delay_seconds (gate w) <= 0)%Q) by (unfold Qle; simpl; lia).
  assert (Hl : (_last_call_time (gate w) <= clock w)%Q) by (unfold Qle; simpl; lia).
  assert (Hcs : Forall (fun c => (0 <= duration (call_env c))%Q) cs).
  { subst cs. repeat constructor; unfold Qle; simpl; lia. }
  split; [exact Hd|]. split; [exact Hl|]. split; [exact Hcs|].
  exact (zero_interval_never_waits 0 cs w Hd Hl Hcs).
Defined.

Lemma spaced_span d ts : forall a,
  spaced d (a :: ts) ->
  (a + inject_Z (Z.of_nat (length ts)) * d <= List.last ts a)%Q.
Proof.
  induction ts as [|b ts IH]; intros a Hs.
  - change (a + 0 * d <= a)%Q. lra.
  - destruct Hs as [Hab Hs]. specialize (IH b Hs).
    change (List.last (b :: ts) a) with
      (match ts with [] => b | _ :: _ => List.last ts a end).
    assert (Hlast : List.last ts b = match ts with [] => b | _ :: _ => List.last ts a end).
    { destruct ts as [|c ts]; [reflexivity|]. simpl.
      clear. revert c. induction ts as [|x ts IHts]; intros c; [reflexivity|].
      simpl. destruct ts; [reflexivity|]. apply (IHts x). }
    rewrite <- Hlast.
    replace (length (b :: ts)) with (S (length ts)) by reflexivity.
    rewrite Nat2Z.inj_succ. unfold Z.succ. rewrite inject_Z_plus.
    change (inject_Z 1) with 1%Q. lra.
Qed.

(** X3.  The rate the wrapper enforces on calls issued one after the other:
    when [n + 1] calls have been dispatched, the last of them began at least
    [n] intervals after the first (each wait lasting at least as long as
    asked). *)
Theorem sequential_dispatches_span who cs t self first rest :
  Forall (fun c => (0 <= overshoot (call_env c))%Q) cs ->
  dispatch_times (history (run_calls who cs (fresh_world t self))) = first :: rest ->
  (first + inject_Z (Z.of_nat (length rest)) * _delay_seconds self
   <= List.last rest first)%Q.
Proof.
  intros Hov Hts. apply spaced_span. rewrite <- Hts.
  rewrite dispatch_times_history. apply spaced_down_rev.
  apply (run_calls_settled (_delay_seconds self) cs who (fresh_world t self) Hov).
  repeat split.
Qed.


Lemma sequential_dispatches_span_witness :
  let self := mkDelayedLLM 2 0 true (mkClient ChatLiteLLM ∅) in
  let cs := [ mkCall 100 Blocking "a" None (mkCallEnv 0 None (1 # 10) (inr "ra"));
              mkCall 100 Suspending "b" None (mkCallEnv (1 # 100) None (1 # 10) (inr "rb"));
              mkCall 101 Blocking "c" None (mkCallEnv 0 None 3 (inr "rc")) ] in
  exists first rest,
    Forall (fun c => (0 <= overshoot (call_env c))%Q) cs
    /\ dispatch_times (history (run_calls 0 cs (fresh_world 0 self))) = first :: rest
    /\ length rest = 2%nat
    /\ (first + inject_Z (Z.of_nat (length rest)) * _delay_seconds self
        <= List.last rest first)%Q.
Proof.
  intros self cs.
  assert (Hov : Forall (fun c => (0 <= overshoot (call_env c))%Q) cs).
  { subst cs. repeat constructor; unfold Qle; simpl; lia. }
  destruct (dispatch_times (history (run_calls 0 cs (fresh_world 0 self))))
    as [|first rest] eqn:Hts.
  { vm_compute in Hts. discriminate Hts. }
  exists first, rest. split; [exact Hov|]. split; [reflexivity|]. split.
  { vm_compute in Hts. injection Hts as _ <-. reflexivity. }
  exact (sequential_dispatches_span 0 cs 0 self first rest Hov Hts).
Defined.

(** ** The settings resolver *)

Lemma values_ext environ (m1 m2 : gmap string PyVal) :
  (forall name, name ∈ map fst model_fields -> m1 !! name = m2 !! name) ->
  values environ m1 = values environ m2.
Proof.
  intros H. apply map_eq. intros name. rewrite !values_lookup.
  destruct (decide (name ∈ map fst model_fields)) as [Hin|]; [|reflexivity].
  unfold raw_value. rewrite (H name Hin). reflexivity.
Qed.

Lemma configurable_of_insert (c : RunnableConfig) (m : gmap string PyVal) :
  configurable_of (Some (<["configurable" := m]> c)) = m.
Proof.
  unfold configurable_of. rewrite lookup_insert_eq.
  destruct (bool_decide (<["configurable" := m]> c = ∅)) eqn:E; [|reflexivity].
  apply bool_decide_eq_true in E. exfalso. revert E. apply insert_non_empty.
Qed.

(** X4.  Only the declared fields are looked up.  An entry of
    ["configurable"] under a name that is not a field of [Configuration]
    changes nothing, and the instance has no value under such a name. *)
Theorem unknown_settings_are_ignored (validate : Validator) environ
    (c : RunnableConfig) (m : gmap string PyVal) (k : string) (v : PyVal) :
  k ∉ map fst model_fields ->
  from_runnable_config validate environ
    (Some (<["configurable" := <[k := v]> m]> c))
  = from_runnable_config validate environ (Some (<["configurable" := m]> c))
  /\ (forall inst,
        from_runnable_config validate environ
          (Some (<["configurable" := <[k := v]> m]> c)) = inr inst ->
        inst !! k = None).
Proof.
  intros Hk. split.
  - unfold from_runnable_config. rewrite !configurable_of_insert.
    f_equal. apply values_ext. intros name Hin.
    rewrite lookup_insert_ne by (intros ->; contradiction). reflexivity.
  - intros inst Hinst.
    exact (proj2 (Configuration_new_fields _ _ _ Hinst) k Hk).
Qed.

Lemma unknown_settings_are_ignored_witness :
  let validate : Validator := fun _ v => Some v in
  let environ : Environ := {[ "MAX_CONCURRENT_AGENTS" := "4" ]} in
  let c : RunnableConfig := {[ "metadata" := ∅ ]} in
  let m : gmap string PyVal := {[ "document_model" := VStr "m" ]} in
  ("documnet_model" ∉ map fst model_fields)
  /\ from_runnable_config validate environ
       (Some (<["configurable" := <["documnet_model" := VStr "typo"]> m]> c))
     = from_runnable_config validate environ (Some (<["configurable" := m]> c))
  /\ exists inst,
       from_runnable_config validate environ
         (Some (<["configurable" := <["documnet_model" := VStr "typo"]> m]> c))
       = inr inst
       /\ inst !! "documnet_model" = None.
Proof.
  intros validate environ c m.
  assert (Hk : "documnet_model" ∉ map fst model_fields).
  { intros Hin. apply list_elem_of_In in Hin. simpl in Hin.
    repeat (destruct Hin as [Hin|Hin]; [discriminate Hin|]). exact Hin. }
  destruct (unknown_settings_are_ignored validate environ c m "documnet_model"
              (VStr "typo") Hk) as [Hsame Hnone].
  split; [exact Hk|]. split; [exact Hsame|].
  destruct (mapM (construct_field validate
                    (values environ
                       (configurable_of
                          (Some (<["configurable" :=
                                     <["documnet_model" := VStr "typo"]> m]> c)))))
              model_fields) as [fields|] eqn:M; [|vm_compute in M; discriminate M].
  pose proof (proj1 (from_runnable_config_built validate environ _ fields M)) as E.
  exists (list_to_map fields). split; [exact E|]. exact (Hnone _ E).
Defined.

(** X5.  Without a source every field has its declared default: when the
    configuration is absent, empty or has no ["configurable"] entry, and no
    environment variable is named after a field, the instance is the table
    of defaults. *)
Theorem defaults_without_sources (validate : Validator) environ config :
  (config = None \/ exists c, config = Some c /\ c !! "configurable" = None) ->
  (forall name, name ∈ map fst model_fields -> environ !! upper name = None) ->
  from_runnable_config validate environ config = inr (list_to_map model_fields).
Proof.
  intros Hconfig Henv.
  assert (Hc : configurable_of config = ∅).
  { destruct Hconfig as [->|(c & -> & Hc)]; [reflexivity|].
    unfold configurable_of. rewrite Hc. destruct (bool_decide (c = ∅)); reflexivity. }
  assert (Hvals : values environ (configurable_of config) = ∅).
  { apply map_eq. intros name. rewrite values_lookup, lookup_empty.
    destruct (decide (name ∈ map fst model_fields)) as [Hin|]; [|reflexivity].
    unfold raw_value. rewrite (Henv name Hin), Hc, lookup_empty. reflexivity. }
  unfold from_runnable_config, Configuration_new. rewrite Hvals.
  assert (Hall : mapM (construct_field validate ∅) model_fields = Some model_fields).
  { apply mapM_Some. apply Forall2_same_length_lookup_2; [reflexivity|].
    intros i x y Hx Hy. rewrite Hx in Hy. injection Hy as <-.
    unfold construct_field. rewrite lookup_empty. reflexivity. }
  rewrite Hall. reflexivity.
Qed.

Lemma defaults_without_sources_witness :
  let validate : Validator := fun _ _ => None in
  let environ : Environ := {[ "HOME" := "/root"; "coordinator_model" := "x" ]} in
  let config : option RunnableConfig := Some {[ "tags" := ∅ ]} in
  (config = None \/ exists c, config = Some c /\ c !! "configurable" = None)
  /\ (forall name, name ∈ map fst model_fields -> environ !! upper name = None)
  /\ from_runnable_config validate environ config = inr (list_to_map model_fields).
Proof.
  intros validate environ config.
  assert (H1 : config = None \/ exists c, config = Some c /\ c !! "configurable" = None).
  { right. eexists. split; [reflexivity|]. reflexivity. }
  assert (H2 : forall name, name ∈ map fst model_fields -> environ !! upper name = None).
  { intros name Hin. apply list_elem_of_In in Hin. simpl in Hin.
    repeat (destruct Hin as [<-|Hin]; [vm_compute; reflexivity|]). destruct Hin. }
  split; [exact H1|]. split; [exact H2|].
  exact (defaults_without_sources validate environ config H1 H2).
Defined.

(** ** Coroutines that share one event loop *)

Lemma pick_None cs : pick cs = None -> cs = [].
Proof.
  destruct cs as [|c cs]; [reflexivity|]. simpl.
  destruct (pick cs) as [[m others]|]; [|discriminate].
  destruct (Qlt_le_dec (wake m) (wake c)); discriminate.
Qed.

Lemma pick_perm cs : forall co others,
  pick cs = Some (co, others) -> cs ≡ₚ co :: others.
Proof.
  induction cs as [|x cs IH]; intros co others Hp; [discriminate|].
  simpl in Hp. destruct (pick cs) as [[m os]|] eqn:E.
  - destruct (Qlt_le_dec (wake m) (wake x)); inversion Hp; subst.
    + rewrite (IH co os eq_refl). apply Permutation_swap.
    + reflexivity.
  - inversion Hp; subst. apply pick_None in E. subst. reflexivity.
Qed.

Lemma pick_budget cs : forall b co others,
  pick cs = Some (co, others) -> budget cs b ->
  exists k b', turns_left co k /\ budget others b' /\ b = (k + b')%nat.
Proof.
  induction cs as [|x cs IH]; intros b co others Hp Hb; [discriminate|].
  inversion Hb as [|? kx ? bx Hx Hcs]; subst.
  simpl in Hp. destruct (pick cs) as [[m os]|] eqn:E.
  - destruct (Qlt_le_dec (wake m) (wake x)); inversion Hp; subst.
    + destruct (IH _ _ _ eq_refl Hcs) as (k & b' & Hk & Hos & ->).
      exists k, (kx + b')%nat. split; [exact Hk|].
      split; [constructor; assumption | lia].
    + exists kx, bx. repeat split; assumption.
  - inversion Hp; subst. exists kx, bx. repeat split; try assumption.
    apply pick_None in E. subst. exact Hcs.
Qed.

Lemma budget_snoc cs b co k :
  budget cs b -> turns_left co k -> budget (cs ++ [co]) (b + k).
Proof.
  intros Hb Hk. induction Hb as [|x kx cs b Hx Hcs IH].
  - simpl. replace k with (k + 0)%nat by lia. constructor; [exact Hk | constructor].
  - simpl. replace (kx + b + k)%nat with (kx + (b + k))%nat by lia.
    constructor; assumption.
Qed.

Lemma budget_zero cs : budget cs 0 -> cs = [].
Proof.
  intros Hb. inversion Hb as [|co k cs' b Hk Hcs Heq]; [reflexivity|].
  exfalso. destruct Hk; simpl in *; lia.
Qed.

Lemma progress_parks who cs s co others b' k' w' t pk :
  parked_tasks s ≡ₚ co :: others ->
  map co_id (parked_tasks s) ++ map fst (finished s) ≡ₚ seq who (length cs) ->
  Forall (answered who cs) (finished s) ->
  of_call who cs co -> Forall (of_call who cs) others ->
  budget others b' ->
  turns_left (mkCoroutine (co_id co) (co_env co) t pk) k' ->
  loop_progress who cs (b' + k')
    (mkLoop w' (others ++ [mkCoroutine (co_id co) (co_env co) t pk]) (finished s)).
Proof.
  intros Hperm Hids Hdone Hco Hoc Hb Hk. constructor; simpl.
  - apply budget_snoc; assumption.
  - apply Forall_app. split; [exact Hoc|]. constructor; [exact Hco | constructor].
  - rewrite <- Hids. apply Permutation_app_tail.
    rewrite (Permutation_map co_id Hperm). rewrite map_app. simpl.
    symmetry. apply Permutation_cons_append.
  - exact Hdone.
Qed.

Lemma progress_finished who cs s co others b' w' r :
  parked_tasks s ≡ₚ co :: others ->
  map co_id (parked_tasks s) ++ map fst (finished s) ≡ₚ seq who (length cs) ->
  Forall (answered who cs) (finished s) ->
  of_call who cs co -> Forall (of_call who cs) others ->
  budget others b' ->
  r = outcome (co_env co) \/ r = inl CancelledError ->
  loop_progress who cs b' (mkLoop w' others (finished s ++ [(co_id co, r)])).
Proof.
  intros Hperm Hids Hdone Hco Hoc Hb Hr. constructor; simpl.
  - exact Hb.
  - exact Hoc.
  - rewrite <- Hids. rewrite (Permutation_map co_id Hperm). rewrite map_app. simpl.
    rewrite app_assoc. rewrite <- Permutation_cons_append. reflexivity.
  - apply Forall_app. split; [exact Hdone|]. constructor; [|constructor].
    destruct Hco as (c & Hc & Henv). exists c. simpl. split; [exact Hc|].
    rewrite <- Henv. exact Hr.
Qed.

(** A turn of the loop uses up at least one of the turns that are left. *)
Lemma loop_step_progress who cs b s :
  loop_progress who cs (S b) s ->
  exists b', (b' <= b)%nat /\ loop_progress who cs b' (loop_step s).
Proof.
  intros [Hb Hc Hids Hdone].
  destruct (pick (parked_tasks s)) as [[co others]|] eqn:Hpick.
  2:{ apply pick_None in Hpick. rewrite Hpick in Hb. inversion Hb. }
  destruct (pick_budget _ _ _ _ Hpick Hb) as (k & b' & Hk & Hothers & Heq).
  pose proof (pick_perm _ _ _ Hpick) as Hperm.
  destruct (pick_Forall _ _ _ _ Hpick Hc) as [Hco Hoc].
  unfold loop_step. rewrite Hpick. unfold resume.
  remember (arrive (wake co) (world s)) as w1 eqn:Ew1. clear Ew1.
  destruct Hk as [co input config Hp|co input config Hp|co k Hp Hk|co Hp];
    rewrite Hp.
  - rewrite run_until_await_ainvoke.
    destruct (Qlt_le_dec (time_since_last_call w1) (_delay_seconds (gate w1))).
    + destruct (cancelled_within (co_env co) _) as [c|].
      * exists (b' + 1)%nat. split; [lia|].
        apply (progress_parks who cs s co); try assumption.
        apply turns_throw. reflexivity.
      * exists (b' + 2)%nat. split; [lia|].
        apply (progress_parks who cs s co); try assumption.
        apply (turns_wake _ input config). reflexivity.
    + exists (b' + 1)%nat. split; [lia|]. unfold dispatch_now.
      apply (progress_parks who cs s co); try assumption.
      apply (turns_answer _ Ret); reflexivity.
  - rewrite run_until_await_tail. unfold dispatch_now.
    exists (b' + 1)%nat. split; [lia|].
    apply (progress_parks who cs s co); try assumption.
    apply (turns_answer _ Ret); reflexivity.
  - exists b'. split; [lia|].
    destruct (outcome (co_env co)) as [exn|r] eqn:Eo.
    + apply (progress_finished who cs s co); try assumption. left. symmetry. exact Eo.
    + rewrite Hk. simpl.
      apply (progress_finished who cs s co); try assumption. left. symmetry. exact Eo.
  - exists b'. split; [lia|].
    apply (progress_finished who cs s co); try assumption. right. reflexivity.
Qed.

Lemma loop_step_idle s : parked_tasks s = [] -> loop_step s = s.
Proof. intros H. unfold loop_step. rewrite H. reflexivity. Qed.

Lemma loop_steps_progress who cs n : forall b s,
  (b <= n)%nat ->
  loop_progress who cs b s ->
  loop_progress who cs 0 (loop_steps n s).
Proof.
  induction n as [|n IH]; intros b s Hbn Hs.
  - assert (b = 0)%nat by lia. subst. exact Hs.
  - simpl. destruct b as [|b].
    + rewrite loop_step_idle by (apply budget_zero, (prog_budget _ _ _ _ Hs)).
      apply (IH 0%nat); [lia | exact Hs].
    + destruct (loop_step_progress who cs b s Hs) as (b' & Hb' & Hs').
      apply (IH b'); [lia | exact Hs'].
Qed.

Lemma spawn_ids cs : forall who, map co_id (spawn who cs) = seq who (length cs).
Proof.
  induction cs as [|c cs IH]; intros who; [reflexivity|].
  simpl. rewrite IH. reflexivity.
Qed.

Lemma spawn_budget cs : forall who,
  Forall (fun c => path c = Suspending) cs ->
  budget (spawn who cs) (3 * length cs).
Proof.
  induction cs as [|c cs IH]; intros who Hcs; [constructor|].
  inversion Hcs as [|? ? Hc Hrest]; subst. simpl spawn.
  replace (3 * length (c :: cs))%nat with (3 + 3 * length cs)%nat by (simpl; lia).
  constructor; [|apply IH; exact Hrest].
  apply (turns_begin _ (call_input c) (call_config c)). simpl. rewrite Hc. reflexivity.
Qed.

Lemma spawn_of_call all pre cs : forall who0,
  all = pre ++ cs ->
  Forall (of_call who0 all) (spawn (who0 + length pre) cs).
Proof.
  revert pre. induction cs as [|c cs IH]; intros pre who0 Hall; [constructor|].
  simpl. constructor.
  - exists c. simpl. split; [|reflexivity].
    replace (who0 + length pre - who0)%nat with (length pre) by lia.
    rewrite Hall. apply list_lookup_middle. reflexivity.
  - replace (S (who0 + length pre)) with (who0 + length (pre ++ [c]))%nat
      by (rewrite length_app; simpl; lia).
    apply IH. rewrite Hall, <- app_assoc. reflexivity.
Qed.

(** X6.  No caller is lost.  When [asyncio.gather] runs calls of [ainvoke]
    on one wrapper, three turns of the loop per call are enough for all of
    them to be over: no coroutine is left parked, every caller has exactly
    one result, and that result is what the client returned or raised for
    its own call, or [CancelledError] when it was cancelled in its wait. *)
Theorem gather_answers_every_caller who cs w :
  Forall (fun c => path c = Suspending) cs ->
  parked_tasks (run_gather who cs w) = []
  /\ map fst (finished (run_gather who cs w)) ≡ₚ seq who (length cs)
  /\ Forall (answered who cs) (finished (run_gather who cs w)).
Proof.
  intros Hcs.
  assert (H0 : loop_progress who cs (3 * length cs) (gather who cs w)).
  { constructor; simpl.
    - apply spawn_budget. exact Hcs.
    - replace who with (who + length (@nil Call))%nat at 2 by (simpl; lia).
      apply (spawn_of_call cs []). reflexivity.
    - rewrite app_nil_r, spawn_ids. reflexivity.
    - constructor. }
  pose proof (loop_steps_progress who cs (3 * length cs) _ _ (le_n _) H0) as [Hb _ Hids Hdone].
  fold (run_gather who cs w) in *.
  apply budget_zero in Hb. rewrite Hb in Hids. simpl in Hids.
  repeat split; assumption.
Qed.

Lemma gather_answers_every_caller_witness :
  let self := mkDelayedLLM 2 0 true (mkClient ChatLiteLLM ∅) in
  let cs := [ mkCall 100 Suspending "a" None (mkCallEnv 0 None (1 # 10) (inr "ra"));
              mkCall 100 Suspending "b" None (mkCallEnv 0 (Some (1 # 2)) 1 (inr "rb"));
              mkCall 100 Suspending "c" None
                (mkCallEnv 0 None (1 # 10) (inl (Raised "APIError"))) ] in
  Forall (fun c => path c = Suspending) cs
  /\ finished (run_gather 0 cs (fresh_world 100 self))
     = [(0%nat, inr "ra"); (1%nat, inl CancelledError); (2%nat, inl (Raised "APIError"))]
  /\ parked_tasks (run_gather 0 cs (fresh_world 100 self)) = []
  /\ map fst (finished (run_gather 0 cs (fresh_world 100 self))) ≡ₚ seq 0 (length cs)
  /\ Forall (answered 0 cs) (finished (run_gather 0 cs (fresh_world 100 self))).
Proof.
  intros self cs.
  assert (Hcs : Forall (fun c => path c = Suspending) cs).
  { subst cs. repeat constructor. }
  split; [exact Hcs|]. split; [vm_compute; reflexivity|].
  exact (gather_answers_every_caller 0 cs (fresh_world 100 self) Hcs).
Defined.

(** * Properties of the conversation display *)

Lemma bind_ok {A B : Type} (m : Printed A) (f : A -> Printed B) (a : A) :
  result m = inr a ->
  lines (m ≫= f) = lines m ++ lines (f a) /\ result (m ≫= f) = result (f a).
Proof. intros H. unfold mbind, Printed_bind. rewrite H. split; reflexivity. Qed.

Lemma In_bind_l {A B : Type} (m : Printed A) (f : A -> Printed B) (x : string) :
  In x (lines m) -> In x (lines (m ≫= f)).
Proof.
  intros H. unfold mbind, Printed_bind. destruct (result m); simpl; [exact H|].
  apply in_or_app. left. exact H.
Qed.

Lemma In_bind_r {A B : Type} (m : Printed A) (f : A -> Printed B) (a : A) (x : string) :
  result m = inr a -> In x (lines (f a)) -> In x (lines (m ≫= f)).
Proof.
  intros Hm H. rewrite (proj1 (bind_ok m f a Hm)). apply in_or_app. right. exact H.
Qed.

Lemma succeeds_print s : succeeds (py_print s).
Proof. reflexivity. Qed.

Lemma succeeds_ret : succeeds (mret tt).
Proof. reflexivity. Qed.

Lemma succeeds_bind (m k : Printed unit) :
  succeeds m -> succeeds k -> succeeds (m;; k).
Proof. intros Hm Hk. unfold succeeds. rewrite (proj2 (bind_ok m _ tt Hm)). exact Hk. Qed.

Lemma succeeds_for_each {A : Type} (items : list A) (body : A -> Printed unit) :
  (forall x, succeeds (body x)) -> succeeds (for_each items body).
Proof.
  intros Hb. induction items as [|x items IH]; [reflexivity|].
  simpl. apply succeeds_bind; [apply Hb | exact IH].
Qed.

Lemma succeeds_if_dict (value : option Dict) (yes : Dict -> Printed unit) (no : Printed unit) :
  (forall items, succeeds (yes items)) -> succeeds no -> succeeds (if_dict value yes no).
Proof. intros Hy Hn. destruct value as [[|item items]|]; simpl; auto. Qed.

Lemma succeeds_if_text (value : option string) (yes : string -> Printed unit)
    (no : Printed unit) :
  (forall s, succeeds (yes s)) -> succeeds no -> succeeds (if_text value yes no).
Proof.
  intros Hy Hn. destruct value as [s|]; simpl; [|exact Hn].
  destruct (String.eqb s ""); auto.
Qed.

(** The walk along a method: a step that always succeeds is passed over,
    the line looked for is found where it is printed. *)
Ltac printed_ok :=
  repeat first
    [ apply succeeds_print
    | apply succeeds_ret
    | apply succeeds_bind
    | apply succeeds_for_each; intros ?
    | apply succeeds_if_dict; [intros ?|]
    | apply succeeds_if_text; [intros ?|]
    | match goal with |- succeeds (if ?b then _ else _) => destruct b end
    | match goal with
      | |- succeeds (match ?b with left _ => _ | right _ => _ end) => destruct b
      end
    | match goal with |- succeeds (match ?l with [] => _ | _ :: _ => _ end) => destruct l end ].

Ltac pass_over :=
  apply In_bind_r with (a := tt);
  [match goal with |- result ?m = inr tt => change (succeeds m) end;
   solve [printed_ok]|].
Ltac found_here := apply In_bind_l; left; reflexivity.

(** X7.  A verbose manager prints the agent's response whole, as one line
    of its own, in [display_conversation_turn] and in
    [display_agent_conversation]; [display_error_scenario] prints the error
    message whole, and the stack trace whole when one is given. *)
Theorem responses_are_printed_whole fixed str_upper str_lower now now_text self
    turn_num user_msg agent_response agent_name context state_changes
    error_type error_message stack_trace recovery_action :
  ConversationDisplayManager.verbose self = true ->
  In agent_response
     (lines (ConversationDisplayManager.display_conversation_turn fixed now self
               turn_num user_msg agent_response agent_name context).2)
  /\ In agent_response
        (lines (ConversationDisplayManager.display_agent_conversation
                  str_upper str_lower self agent_name user_msg agent_response
                  context state_changes).2)
  /\ In error_message
        (lines (ConversationDisplayManager.display_error_scenario now_text self
                  error_type error_message stack_trace recovery_action).2)
  /\ (forall trace, stack_trace = Some trace -> trace <> "" ->
      In trace
         (lines (ConversationDisplayManager.display_error_scenario now_text self
                   error_type error_message stack_trace recovery_action).2)).
Proof.
  intros Hv.
  unfold ConversationDisplayManager.display_conversation_turn,
    ConversationDisplayManager.display_agent_conversation,
    ConversationDisplayManager.display_error_scenario.
  rewrite Hv. simpl negb. cbv iota. cbn [snd].
  split; [|split; [|split]].
  - do 7 pass_over. do 2 pass_over. found_here.
  - do 7 pass_over. do 2 pass_over. found_here.
  - do 7 pass_over. found_here.
  - intros trace -> Hne. do 9 pass_over.
    apply In_bind_l. unfold if_text.
    destruct (String.eqb_spec trace ""); [contradiction|].
    do 2 pass_over. found_here.
Qed.

(** X8.  [display_tool_interaction] counts the interactions of a verbose
    manager and only those: after any calls, whether they returned or
    raised, [total_interactions] has grown by their number when the manager
    is verbose and is unchanged when it is not; nothing else of the manager
    changes. *)
Theorem tool_interactions_are_counted fixed calls : forall self,
  ConversationDisplayManager.total_interactions (after_tool_calls fixed self calls)
  = (ConversationDisplayManager.total_interactions self
     + (if ConversationDisplayManager.verbose self
        then Z.of_nat (length calls) else 0))%Z
  /\ ConversationDisplayManager.verbose (after_tool_calls fixed self calls)
     = ConversationDisplayManager.verbose self
  /\ ConversationDisplayManager.conversation_turns (after_tool_calls fixed self calls)
     = ConversationDisplayManager.conversation_turns self
  /\ ConversationDisplayManager.test_name (after_tool_calls fixed self calls)
     = ConversationDisplayManager.test_name self
  /\ ConversationDisplayManager.start_time (after_tool_calls fixed self calls)
     = ConversationDisplayManager.start_time self.
Proof.
  induction calls as [|c calls IH]; intros self.
  - simpl. destruct (ConversationDisplayManager.verbose self);
      repeat split; lia.
  - change (after_tool_calls fixed self (c :: calls)) with
      (after_tool_calls fixed
         (ConversationDisplayManager.display_tool_interaction fixed self
            (tc_name c) (tc_input c) (tc_output c) (tc_time c) (tc_error c)).1 calls).
    destruct (IH (ConversationDisplayManager.display_tool_interaction fixed self
                    (tc_name c) (tc_input c) (tc_output c) (tc_time c) (tc_error c)).1)
      as (Ht & Hv & Hc & Hn & Hs).
    rewrite Ht, Hv, Hc, Hn, Hs.
    unfold ConversationDisplayManager.display_tool_interaction.
    destruct (ConversationDisplayManager.verbose self) eqn:E; simpl; rewrite ?E;
      repeat split; lia.
Qed.

(** X9.  The function [display_tool_interaction] of the module makes a new
    manager for every call, so its numbering never advances: whatever the
    arguments, what it prints begins with the rule and the heading of
    interaction number 1. *)
Theorem module_tool_interaction_is_number_one fixed now tool_name tool_input
    tool_output execution_time error :
  exists rest,
    lines (display_tool_interaction fixed now tool_name tool_input tool_output
             execution_time error)
    = first_tool_heading ++ rest.
Proof.
  unfold display_tool_interaction, ConversationDisplayManager.display_tool_interaction,
    ConversationDisplayManager.init.
  cbn [ConversationDisplayManager.verbose negb snd
       ConversationDisplayManager.total_interactions].
  rewrite (proj1 (bind_ok _ _ tt (succeeds_print _))).
  match goal with |- context [lines (?m ≫= ?f)] =>
    rewrite (proj1 (bind_ok m f tt (succeeds_print _))) end.
  eexists. reflexivity.
Qed.

(** X10.  An error message takes the place of the tool's output.  With a
    verbose manager and an error that is not empty, the call cannot raise
    ([json.dumps] is not tried), the message is printed whole and its
    length is the character count shown, and of the tool's output only the
    name of its type is used.  An empty error message is no error: the call
    does what it does without one. *)
Theorem error_takes_the_place_of_the_output fixed self tool_name tool_input
    tool_output other_output execution_time error :
  ConversationDisplayManager.verbose self = true ->
  error <> "" ->
  obj_type_name other_output = obj_type_name tool_output ->
  succeeds (ConversationDisplayManager.display_tool_interaction fixed self tool_name
              tool_input tool_output execution_time (Some error)).2
  /\ In error
        (lines (ConversationDisplayManager.display_tool_interaction fixed self tool_name
                  tool_input tool_output execution_time (Some error)).2)
  /\ In ("   📏 Character Count: " +:+ str_len (String.length error))
        (lines (ConversationDisplayManager.display_tool_interaction fixed self tool_name
                  tool_input tool_output execution_time (Some error)).2)
  /\ ConversationDisplayManager.display_tool_interaction fixed self tool_name
       tool_input other_output execution_time (Some error)
     = ConversationDisplayManager.display_tool_interaction fixed self tool_name
         tool_input tool_output execution_time (Some error)
  /\ ConversationDisplayManager.display_tool_interaction fixed self tool_name
       tool_input tool_output execution_time (Some "")
     = ConversationDisplayManager.display_tool_interaction fixed self tool_name
         tool_input tool_output execution_time None.
Proof.
  intros Hv Hne Hty.
  unfold ConversationDisplayManager.display_tool_interaction.
  rewrite Hv. simpl negb. cbv iota. cbn [snd].
  unfold if_text. destruct (String.eqb_spec error ""); [contradiction|].
  rewrite Hty.
  split; [|split; [|split; [|split]]].
  - printed_ok.
  - do 7 pass_over. apply In_bind_l. do 2 pass_over. found_here.
  - do 8 pass_over. pass_over. found_here.
  - reflexivity.
  - reflexivity.
Qed.

Lemma responses_are_printed_whole_witness :
  let self := ConversationDisplayManager.init 0 "T" true in
  let fixed := fun (_ : nat) (_ : Q) => "0.00" in
  let same := fun s : string => s in
  let response := "line one" +:+ nl +:+ "line two" in
  ConversationDisplayManager.verbose self = true
  /\ In response
        (lines (ConversationDisplayManager.display_conversation_turn fixed 1 self
                  3 "hello" response "AGENT" None).2)
  /\ In response
        (lines (ConversationDisplayManager.display_agent_conversation
                  same same self "AGENT" "hello" response None None).2)
  /\ In "boom"
        (lines (ConversationDisplayManager.display_error_scenario "12:00:00" self
                  "ValueError" "boom" (Some "trace") None).2)
  /\ (forall trace, Some "trace" = Some trace -> trace <> "" ->
      In trace
         (lines (ConversationDisplayManager.display_error_scenario "12:00:00" self
                   "ValueError" "boom" (Some "trace") None).2)).
Proof.
  intros self fixed same response.
  split; [reflexivity|].
  exact (responses_are_printed_whole fixed same same 1 "12:00:00" self 3 "hello"
           response "AGENT" None None "ValueError" "boom" (Some "trace") None eq_refl).
Defined.

Lemma error_takes_the_place_of_the_output_witness :
  let self := ConversationDisplayManager.init 0 "T" true in
  let fixed := fun (_ : nat) (_ : Q) => "0.000" in
  let output := mkPyObj "{'a': 1}" "dict" true (inl (Raised "TypeError")) in
  let other := mkPyObj "{}" "dict" true (inr "{}") in
  ConversationDisplayManager.verbose self = true
  /\ "boom" <> ""
  /\ obj_type_name other = obj_type_name output
  /\ succeeds (ConversationDisplayManager.display_tool_interaction fixed self "tool"
                 [] output 0 (Some "boom")).2
  /\ In "boom"
        (lines (ConversationDisplayManager.display_tool_interaction fixed self "tool"
                  [] output 0 (Some "boom")).2).
Proof.
  intros self fixed output other.
  assert (Hne : "boom" <> "") by discriminate.
  split; [reflexivity|]. split; [exact Hne|]. split; [reflexivity|].
  destruct (error_takes_the_place_of_the_output fixed self "tool" [] output other 0
              "boom" eq_refl Hne eq_refl) as (H1 & H2 & _).
  split; [exact H1 | exact H2].
Defined.

Lemma append_cons (a : ascii) (s t : string) :
  String a s +:+ t = String a (s +:+ t).
Proof. reflexivity. Qed.

Lemma append_empty_r (s : string) : s +:+ "" = s.
Proof.
  induction s as [|a s IH]; [reflexivity|]. rewrite append_cons, IH. reflexivity.
Qed.

Lemma append_assoc (s t u : string) : (s +:+ t) +:+ u = s +:+ (t +:+ u).
Proof.
  induction s as [|a s IH]; [reflexivity|]. rewrite !append_cons, IH. reflexivity.
Qed.

Lemma length_append (s t : string) :
  String.length (s +:+ t) = (String.length s + String.length t)%nat.
Proof.
  induction s as [|a s IH]; [reflexivity|].
  rewrite append_cons. simpl. rewrite IH. reflexivity.
Qed.

Lemma prefix_one_char (c x : ascii) (rest : string) :
  String.prefix (String c "") (String x rest) = Ascii.eqb x c.
Proof.
  simpl. destruct (ascii_dec c x) as [->|Hne].
  - rewrite Ascii.eqb_refl. destruct rest; reflexivity.
  - symmetry. apply Ascii.eqb_neq. congruence.
Qed.

Lemma split_one_char_length (c : ascii) (s : string) : forall cur,
  length (split_from (String c "") s 0 cur) = S (count_char c s).
Proof.
  induction s as [|x rest IH]; intros cur; [reflexivity|].
  cbn [split_from count_char]. rewrite prefix_one_char.
  destruct (Ascii.eqb x c); simpl; rewrite IH; reflexivity.
Qed.

(** X11.  The line count of [display_conversation_turn] is one more than
    the number of line breaks in the response: an empty response counts as
    one line, and a response that ends in a line break counts the empty
    line after it. *)
Theorem line_count_is_breaks_plus_one fixed now self turn_num user_msg
    agent_response agent_name context :
  ConversationDisplayManager.verbose self = true ->
  In (line_count_line (S (count_char (ascii_of_nat 10) agent_response)))
     (lines (ConversationDisplayManager.display_conversation_turn fixed now self
               turn_num user_msg agent_response agent_name context).2).
Proof.
  intros Hv. unfold ConversationDisplayManager.display_conversation_turn.
  rewrite Hv. simpl negb. cbv iota. cbn [snd].
  do 13 pass_over. apply In_bind_l. left.
  unfold line_count_line, str_split, nl.
  rewrite split_one_char_length. reflexivity.
Qed.

Lemma line_count_is_breaks_plus_one_witness :
  let self := ConversationDisplayManager.init 0 "T" true in
  let fixed := fun (_ : nat) (_ : Q) => "0.00" in
  ConversationDisplayManager.verbose self = true
  /\ count_char (ascii_of_nat 10) ("a" +:+ nl +:+ "b" +:+ nl) = 2%nat
  /\ In (line_count_line 3)
        (lines (ConversationDisplayManager.display_conversation_turn fixed 1 self
                  1 "hello" ("a" +:+ nl +:+ "b" +:+ nl) "AGENT" None).2).
Proof.
  intros self fixed. split; [reflexivity|]. split; [reflexivity|].
  exact (line_count_is_breaks_plus_one fixed 1 self 1 "hello"
           ("a" +:+ nl +:+ "b" +:+ nl) "AGENT" None eq_refl).
Defined.

Lemma split_without_first_char (sep_rest : string) (c : ascii) (s : string) : forall cur,
  count_char c s = 0%nat ->
  split_from (String c sep_rest) s 0 cur = [cur +:+ s].
Proof.
  induction s as [|x rest IH]; intros cur Hc.
  - simpl. rewrite append_empty_r. reflexivity.
  - cbn [count_char] in Hc. destruct (Ascii.eqb x c) eqn:E; [discriminate Hc|].
    cbn [split_from].
    assert (Hp : String.prefix (String c sep_rest) (String x rest) = false).
    { simpl. destruct (ascii_dec c x) as [->|Hne]; [|reflexivity].
      rewrite Ascii.eqb_refl in E. discriminate E. }
    rewrite Hp, (IH _ Hc).
    rewrite append_assoc. reflexivity.
Qed.

(** X12.  [display_agent_conversation] counts the lines of the response by
    splitting it at a backslash followed by the letter n (the f-string of
    line 183 writes the separator with two backslashes), not at the line
    breaks: a response in which no backslash occurs is shown as 1 line,
    however many line breaks it has. *)
Theorem agent_conversation_counts_one_line str_upper str_lower self agent_name
    user_message agent_response context state_changes :
  ConversationDisplayManager.verbose self = true ->
  count_char (ascii_of_nat 92) agent_response = 0%nat ->
  In (response_lines_line 1)
     (lines (ConversationDisplayManager.display_agent_conversation str_upper str_lower
               self agent_name user_message agent_response context state_changes).2).
Proof.
  intros Hv Hc. unfold ConversationDisplayManager.display_agent_conversation.
  rewrite Hv. simpl negb. cbv iota. cbn [snd].
  do 14 pass_over. apply In_bind_l. left.
  unfold response_lines_line, str_split, ConversationDisplayManager.backslash_n.
  rewrite (split_without_first_char _ _ _ _ Hc). reflexivity.
Qed.

Lemma agent_conversation_counts_one_line_witness :
  let self := ConversationDisplayManager.init 0 "T" true in
  let same := fun s : string => s in
  let response := "one" +:+ nl +:+ "two" +:+ nl +:+ "three" in
  ConversationDisplayManager.verbose self = true
  /\ count_char (ascii_of_nat 92) response = 0%nat
  /\ count_char (ascii_of_nat 10) response = 2%nat
  /\ In (response_lines_line 1)
        (lines (ConversationDisplayManager.display_agent_conversation same same
                  self "AGENT" "hello" response None None).2).
Proof.
  intros self same response.
  split; [reflexivity|]. split; [reflexivity|]. split; [reflexivity|].
  exact (agent_conversation_counts_one_line same same self "AGENT" "hello" response
           None None eq_refl eq_refl).
Defined.

(** X13.  A prefix type that is not in the table is shown as ["info"]:
    [display_with_emoji_prefix] prints for it what it prints for ["info"],
    the message unchanged after the pictograph and one space. *)
Theorem unknown_prefix_is_info message prefix_type :
  prefixes !! prefix_type = None ->
  display_with_emoji_prefix message prefix_type
  = display_with_emoji_prefix message "info"
  /\ lines (display_with_emoji_prefix message prefix_type)
     = ["ℹ️" +:+ " " +:+ message].
Proof.
  intros Hnone. unfold display_with_emoji_prefix. rewrite Hnone.
  assert (Hinfo : prefixes !! "info" = Some "ℹ️") by (vm_compute; reflexivity).
  rewrite Hinfo. split; reflexivity.
Qed.

Lemma unknown_prefix_is_info_witness :
  prefixes !! "debug" = None
  /\ display_with_emoji_prefix "hello" "debug" = display_with_emoji_prefix "hello" "info"
  /\ lines (display_with_emoji_prefix "hello" "debug") = ["ℹ️" +:+ " " +:+ "hello"].
Proof.
  assert (H : prefixes !! "debug" = None) by (vm_compute; reflexivity).
  split; [exact H|].
  exact (unknown_prefix_is_info "hello" "debug" H).
Defined.

Lemma for_each_print {A : Type} (f : A -> string) (items : list A) :
  for_each items (fun x => py_print (f x)) = mkPrinted (map f items) (inr tt).
Proof.
  induction items as [|x items IH]; [reflexivity|].
  cbn [for_each map]. rewrite IH. reflexivity.
Qed.

Lemma In_for_each {A : Type} (f : A -> string) (items : list A) (x : A) :
  In x items -> In (f x) (lines (for_each items (fun x => py_print (f x)))).
Proof. intros H. rewrite for_each_print. simpl. apply in_map. exact H. Qed.

Lemma inject_Z_zero (z : Z) : Qeq_bool (inject_Z z) 0 = true <-> z = 0%Z.
Proof.
  rewrite Qeq_bool_iff. unfold Qeq. simpl. lia.
Qed.

(** X14.  [display_test_summary] divides by the number of tests: with a
    verbose manager it raises [ZeroDivisionError] exactly when
    [total_tests] is 0, and then the summary stops after the three counts;
    the success rate, the times, the turns, the interactions and the
    closing rule are not printed. *)
Theorem summary_of_no_tests_raises fixed now_text self total_tests passed failed
    total_time :
  ConversationDisplayManager.verbose self = true ->
  (result (ConversationDisplayManager.display_test_summary fixed now_text self
             total_tests passed failed total_time).2
   = inl (Raised "ZeroDivisionError") <-> total_tests = 0%Z)
  /\ (total_tests = 0%Z ->
      lines (ConversationDisplayManager.display_test_summary fixed now_text self
               total_tests passed failed total_time).2
      = summary_head self total_tests passed failed).
Proof.
  intros Hv. unfold ConversationDisplayManager.display_test_summary.
  rewrite Hv. simpl negb. cbv iota. cbn [snd].
  unfold true_div.
  destruct (Qeq_bool (inject_Z total_tests) 0) eqn:E.
  - apply inject_Z_zero in E. split; [split; [intros _; exact E | intros _; reflexivity]|].
    intros _. reflexivity.
  - assert (Hne : total_tests <> 0%Z).
    { intros H. apply inject_Z_zero in H. congruence. }
    split; [|intros H; contradiction].
    split; [|intros H; contradiction].
    intros H. exfalso.
    destruct total_time as [q|]; simpl in H; [|discriminate H].
    destruct (Qeq_bool q 0); simpl in H; discriminate H.
Qed.

Lemma summary_of_no_tests_raises_witness :
  let self := ConversationDisplayManager.init 0 "T" true in
  let fixed := fun (_ : nat) (_ : Q) => "0.0" in
  ConversationDisplayManager.verbose self = true
  /\ result (ConversationDisplayManager.display_test_summary fixed "12:00:00" self
               0 0 0 None).2 = inl (Raised "ZeroDivisionError")
  /\ lines (ConversationDisplayManager.display_test_summary fixed "12:00:00" self
              0 0 0 None).2 = summary_head self 0 0 0.
Proof.
  intros self fixed. split; [reflexivity|].
  destruct (summary_of_no_tests_raises fixed "12:00:00" self 0 0 0 None eq_refl)
    as [Hr Hl].
  split; [exact (proj2 Hr eq_refl) | exact (Hl eq_refl)].
Defined.

(** X15.  An output that [json.dumps] cannot serialise ends the display.
    With a verbose manager, no error message and a dictionary or list as
    output, what [json.dumps] raises leaves [display_tool_interaction]: the
    interaction has been counted, the heading, the input and the heading of
    the output have been printed, and neither the output nor the metrics
    follow. *)
Theorem unserialisable_output_ends_the_display fixed self tool_name tool_input
    tool_output execution_time error e :
  ConversationDisplayManager.verbose self = true ->
  (error = None \/ error = Some "") ->
  obj_is_dict_or_list tool_output = true ->
  obj_json tool_output = inl e ->
  result (ConversationDisplayManager.display_tool_interaction fixed self tool_name
            tool_input tool_output execution_time error).2 = inl e
  /\ lines (ConversationDisplayManager.display_tool_interaction fixed self tool_name
              tool_input tool_output execution_time error).2
     = tool_head fixed (ConversationDisplayManager.total_interactions self + 1)
         tool_name tool_input execution_time
  /\ ConversationDisplayManager.total_interactions
       (ConversationDisplayManager.display_tool_interaction fixed self tool_name
          tool_input tool_output execution_time error).1
     = (ConversationDisplayManager.total_interactions self + 1)%Z.
Proof.
  intros Hv Herr Hdl Hj.
  unfold ConversationDisplayManager.display_tool_interaction, tool_head.
  rewrite Hv. simpl negb. cbv iota. cbn [snd fst].
  rewrite for_each_print, Hdl, Hj.
  destruct Herr as [-> | ->]; destruct (Qlt_le_dec 0 execution_time);
    (split; [reflexivity|split; [|reflexivity]]);
    unfold mbind, Printed_bind; simpl; rewrite ?app_nil_r; reflexivity.
Qed.

Lemma unserialisable_output_ends_the_display_witness :
  let self := ConversationDisplayManager.init 0 "T" true in
  let fixed := fun (_ : nat) (_ : Q) => "0.000" in
  let output := mkPyObj "{'at': datetime.datetime(2024, 1, 1, 0, 0)}" "dict" true
                  (inl (Raised "TypeError")) in
  let input := [("query", mkPyObj "x" "str" false (inr "x"))] in
  ConversationDisplayManager.verbose self = true
  /\ result (ConversationDisplayManager.display_tool_interaction fixed self "lookup"
               input output 0 None).2 = inl (Raised "TypeError")
  /\ lines (ConversationDisplayManager.display_tool_interaction fixed self "lookup"
              input output 0 None).2 = tool_head fixed 1 "lookup" input 0
  /\ ConversationDisplayManager.total_interactions
       (ConversationDisplayManager.display_tool_interaction fixed self "lookup"
          input output 0 None).1 = 1%Z.
Proof.
  intros self fixed output input. split; [reflexivity|].
  exact (unserialisable_output_ends_the_display fixed self "lookup" input output 0
           None (Raised "TypeError") eq_refl (or_introl eq_refl) eq_refl eq_refl).
Defined.

Lemma take_chars_all (s : string) : forall n,
  (String.length s <= n)%nat -> take_chars n s = s.
Proof.
  induction s as [|c s IH]; intros [|n] H; simpl in *; try reflexivity; [lia|].
  rewrite IH by lia. reflexivity.
Qed.

Lemma take_chars_length (s : string) : forall n,
  (n <= String.length s)%nat -> String.length (take_chars n s) = n.
Proof.
  induction s as [|c s IH]; intros [|n] H; simpl in *; try reflexivity; [lia|].
  rewrite IH by lia. reflexivity.
Qed.

(** X16.  [display_agent_conversation] cuts long context values.  For an
    entry of the context of a verbose manager, a value of at most 100
    characters is shown whole, and a longer one is shown as its first 100
    characters followed by three dots; [display_conversation_turn] shows
    the value whole whatever its length. *)
Theorem agent_conversation_cuts_context_values fixed str_upper str_lower now self
    turn_num agent_name user_message agent_response items state_changes key value :
  ConversationDisplayManager.verbose self = true ->
  In (key, value) items ->
  In (context_line key value)
     (lines (ConversationDisplayManager.display_conversation_turn fixed now self
               turn_num user_message agent_response agent_name (Some items)).2)
  /\ ((String.length (obj_str value) <= 100)%nat ->
      In (context_line key value)
         (lines (ConversationDisplayManager.display_agent_conversation str_upper
                   str_lower self agent_name user_message agent_response
                   (Some items) state_changes).2))
  /\ ((100 < String.length (obj_str value))%nat ->
      In (cut_context_line key value)
         (lines (ConversationDisplayManager.display_agent_conversation str_upper
                   str_lower self agent_name user_message agent_response
                   (Some items) state_changes).2)
      /\ String.length (take_chars 100 (obj_str value)) = 100%nat).
Proof.
  intros Hv Hin.
  unfold ConversationDisplayManager.display_conversation_turn,
    ConversationDisplayManager.display_agent_conversation.
  rewrite Hv. simpl negb. cbv iota. cbn [snd].
  assert (Hitems : exists item rest, items = item :: rest).
  { destruct items as [|item rest]; [destruct Hin | eauto]. }
  destruct Hitems as (item & rest & Hitems).
  split; [|split].
  - do 6 pass_over. apply In_bind_l. rewrite Hitems. cbn [if_dict]. rewrite <- Hitems.
    pass_over.
    exact (In_for_each (fun kv : string * PyObj => context_line kv.1 kv.2)
             items (key, value) Hin).
  - intros Hle. do 6 pass_over. apply In_bind_l. rewrite Hitems. cbn [if_dict].
    rewrite <- Hitems. pass_over.
    pose proof (In_for_each
      (fun kv : string * PyObj =>
         "   " +:+ kv.1 +:+ ": " +:+ take_chars 100 (obj_str kv.2)
         +:+ (if (100 <? String.length (obj_str kv.2))%nat then "..." else ""))
      items (key, value) Hin) as H.
    cbn [fst snd] in H. rewrite (take_chars_all _ _ Hle) in H.
    destruct (Nat.ltb_spec 100 (String.length (obj_str value))) as [Hlt|_]; [lia|].
    rewrite append_empty_r in H. exact H.
  - intros Hlt. split; [|apply take_chars_length; lia].
    do 6 pass_over. apply In_bind_l. rewrite Hitems. cbn [if_dict].
    rewrite <- Hitems. pass_over.
    pose proof (In_for_each
      (fun kv : string * PyObj =>
         "   " +:+ kv.1 +:+ ": " +:+ take_chars 100 (obj_str kv.2)
         +:+ (if (100 <? String.length (obj_str kv.2))%nat then "..." else ""))
      items (key, value) Hin) as H.
    cbn [fst snd] in H.
    destruct (Nat.ltb_spec 100 (String.length (obj_str value))) as [_|Hle]; [|lia].
    exact H.
Qed.

Lemma agent_conversation_cuts_context_values_witness :
  let self := ConversationDisplayManager.init 0 "T" true in
  let fixed := fun (_ : nat) (_ : Q) => "0.00" in
  let same := fun s : string => s in
  let long := mkPyObj (rep "x" 101) "str" false (inr (rep "x" 101)) in
  let items := [("notes", long)] in
  ConversationDisplayManager.verbose self = true
  /\ In ("notes", long) items
  /\ (100 < String.length (obj_str long))%nat
  /\ In (context_line "notes" long)
        (lines (ConversationDisplayManager.display_conversation_turn fixed 1 self
                  1 "hello" "answer" "AGENT" (Some items)).2)
  /\ In (cut_context_line "notes" long)
        (lines (ConversationDisplayManager.display_agent_conversation same same self
                  "AGENT" "hello" "answer" (Some items) None).2).
Proof.
  intros self fixed same long items.
  assert (Hin : In ("notes", long) items) by (left; reflexivity).
  assert (Hlen : (100 < String.length (obj_str long))%nat) by (vm_compute; lia).
  split; [reflexivity|]. split; [exact Hin|]. split; [exact Hlen|].
  destruct (agent_conversation_cuts_context_values fixed same same 1 self 1 "AGENT"
              "hello" "answer" items None "notes" long eq_refl Hin)
    as (Hturn & _ & Hcut).
  split; [exact Hturn | exact (proj1 (Hcut Hlen))].
Defined.

Lemma last_after_head {A : Type} (l : list A) (x d : A) :
  List.last (x :: l) d = List.last l x.
Proof.
  revert x d. induction l as [|y l IH]; intros x d; [reflexivity|].
  change (List.last (x :: y :: l) d) with (List.last (y :: l) d).
  rewrite (IH y d), (IH y x). reflexivity.
Qed.

(** X17.  [display_conversation_turn] records the turn number it is given,
    it does not count: after any calls on a verbose manager
    [conversation_turns] is the number given to the last call, and a
    manager that is not verbose keeps the value it had;
    [total_interactions] is never changed by it. *)
Theorem conversation_turns_is_the_last_turn_number fixed calls : forall self,
  ConversationDisplayManager.conversation_turns (after_turns fixed self calls)
  = (if ConversationDisplayManager.verbose self
     then List.last (map tn_num calls) (ConversationDisplayManager.conversation_turns self)
     else ConversationDisplayManager.conversation_turns self)
  /\ ConversationDisplayManager.total_interactions (after_turns fixed self calls)
     = ConversationDisplayManager.total_interactions self
  /\ ConversationDisplayManager.verbose (after_turns fixed self calls)
     = ConversationDisplayManager.verbose self.
Proof.
  induction calls as [|c calls IH]; intros self.
  - simpl. destruct (ConversationDisplayManager.verbose self); repeat split.
  - change (after_turns fixed self (c :: calls)) with
      (after_turns fixed
         (ConversationDisplayManager.display_conversation_turn fixed (tn_now c) self
            (tn_num c) (tn_user c) (tn_response c) (tn_agent c) (tn_context c)).1 calls).
    destruct (IH (ConversationDisplayManager.display_conversation_turn fixed (tn_now c)
                    self (tn_num c) (tn_user c) (tn_response c) (tn_agent c)
                    (tn_context c)).1) as (Ht & Hi & Hv).
    rewrite Ht, Hi, Hv.
    unfold ConversationDisplayManager.display_conversation_turn.
    destruct (ConversationDisplayManager.verbose self) eqn:E; simpl negb; cbv iota;
      cbn [fst ConversationDisplayManager.verbose
           ConversationDisplayManager.conversation_turns
           ConversationDisplayManager.total_interactions]; rewrite ?E;
      repeat split.
    cbn [map]. symmetry. apply last_after_head.
Qed.
